(** * The offline vote queue of vue-voting-poc (src/App.vue, src/db.js)

    A shallow embedding of the script block of [App.vue]: the Dexie table
    [db.votes], the reactive cells [votes] and [isOnline], and the async
    functions [castVote], [loadVotes], [sendVote] and [processQueue].

    Async functions are written in a state-and-exception monad over the
    [World]; the places where the JavaScript awaits are the places where the
    interleaving machine of the second part lets other handlers run. *)

From stdpp Require Import gmap strings list fin_maps sorting pretty.
From Stdlib Require Import QArith Ascii.
Local Open Scope Z_scope.
#[local] Set Warnings "-clear-no-such-hyp".

(** ** Data model *)

(** The three string literals the script writes into [status].  It never
    writes ['confirmed']: a delivered row is deleted. *)
Inductive Status : Type := queued | sending | failed.

#[global] Instance Status_eq_dec : EqDecision Status.
Proof. solve_decision. Defined.

(** One row of [db.votes], with the fields [castVote] gives it. *)
Module Vote.
Record t : Type := mk {
  id : string;
  idempotencyKey : string;
  status : Status;
  retries : Z;
  signature : string
}.
End Vote.

(** The second argument of [db.votes.update(key, changes)]: an object literal
    that mentions some of the fields.  The script only ever passes [status]
    and [retries]. *)
Record Changes : Type := mkChanges {
  ch_status : option Status;
  ch_retries : option Z
}.

Definition apply_changes (c : Changes) (v : Vote.t) : Vote.t :=
  Vote.mk (Vote.id v) (Vote.idempotencyKey v)
          (default (Vote.status v) (ch_status c))
          (default (Vote.retries v) (ch_retries c))
          (Vote.signature v).

(** The two objects the loop of [processQueue] passes to [update]. *)
Abbreviation to_sending := (apply_changes (mkChanges (Some sending) None)).
Abbreviation to_failed vote :=
  (apply_changes (mkChanges (Some failed) (Some (Vote.retries vote + 1)))).

(** What a rejected promise carries. *)
Inductive Error : Type :=
  | ConstraintError          (* Dexie: [add] on a key that exists *)
  | NetworkError.            (* [new Error('Network error')] in [sendVote] *)

Inductive Result (A : Type) : Type :=
  | Ok (a : A)
  | Throw (e : Error).
Arguments Ok {A} a.
Arguments Throw {A} e.

(** The mutable state the script block closes over.  [draws] counts the calls
    [sendVote] has made to [Math.random]; [wire] is a ghost log of the ids
    that went past the online check of [sendVote], that is, of the simulated
    requests to the backend, oldest first. *)
Record World : Type := mkWorld {
  db_votes : gmap string Vote.t;
  votes : list Vote.t;
  isOnline : bool;
  draws : nat;
  wire : list string
}.

Definition set_db (m : gmap string Vote.t) (w : World) : World :=
  mkWorld m (votes w) (isOnline w) (draws w) (wire w).
Definition set_votes (l : list Vote.t) (w : World) : World :=
  mkWorld (db_votes w) l (isOnline w) (draws w) (wire w).
Definition set_isOnline (b : bool) (w : World) : World :=
  mkWorld (db_votes w) (votes w) b (draws w) (wire w).
Definition log_request (key : string) (w : World) : World :=
  mkWorld (db_votes w) (votes w) (isOnline w) (draws w) (wire w ++ [key]).
Definition count_draw (w : World) : World :=
  mkWorld (db_votes w) (votes w) (isOnline w) (S (draws w)) (wire w).

(** ** The monad of async functions *)

Definition M (A : Type) : Type := World → Result A * World.

Definition ret {A} (a : A) : M A := λ w, (Ok a, w).
Definition throw {A} (e : Error) : M A := λ w, (Throw e, w).
Definition bind {A B} (m : M A) (k : A → M B) : M B :=
  λ w, match m w with
       | (Ok a, w') => k a w'
       | (Throw e, w') => (Throw e, w')
       end.
(** [try { body } catch { handler }] *)
Definition try_catch {A} (body : M A) (handler : M A) : M A :=
  λ w, match body w with
       | (Ok a, w') => (Ok a, w')
       | (Throw _, w') => handler w'
       end.
Definition get {A} (f : World → A) : M A := λ w, (Ok (f w), w).
Definition modify (f : World → World) : M unit := λ w, (Ok tt, f w).

Notation "'let*' x ':=' m 'in' k" := (bind m (λ x, k))
  (at level 10, x name, m at level 100, k at level 200).
Notation "m ;;; k" := (bind m (λ _ : unit, k))
  (at level 100, right associativity).

(** [for (const x of l) { body }] *)
Fixpoint for_of {A} (l : list A) (body : A → M unit) : M unit :=
  match l with
  | [] => ret tt
  | x :: rest => body x ;;; for_of rest body
  end.

(** ** The Dexie table [db.votes] (db.js)

    [db.version(1).stores({ votes: 'id, status, ...' })]: the primary key is
    [id] and [status] is indexed, which is what [where('status')] needs.  The
    store is taken to be available: apart from [add] on a key that exists, no
    table operation rejects. *)

(** IndexedDB hands rows out in the order of their primary key. *)
Definition key_le (a b : Vote.t) : Prop :=
  Is_true (String.leb (Vote.id a) (Vote.id b)).
#[global] Instance key_le_dec : RelDecision key_le.
Proof. intros a b. unfold key_le. apply _. Defined.

Definition rows (m : gmap string Vote.t) : list Vote.t :=
  merge_sort key_le ((map_to_list m).*2).

(** [db.votes.add(v)]: rejects when the key is taken. *)
Definition table_add (v : Vote.t) : M unit :=
  λ w, match db_votes w !! Vote.id v with
       | Some _ => (Throw ConstraintError, w)
       | None => (Ok tt, set_db (<[Vote.id v := v]> (db_votes w)) w)
       end.

(** [db.votes.update(key, changes)]: changes the row when there is one. *)
Definition table_update (key : string) (c : Changes) : M unit :=
  modify (λ w, set_db (alter (apply_changes c) key (db_votes w)) w).

(** [db.votes.delete(key)] *)
Definition table_delete (key : string) : M unit :=
  modify (λ w, set_db (delete key (db_votes w)) w).

(** [db.votes.toArray()] *)
Definition table_toArray : M (list Vote.t) :=
  get (λ w, rows (db_votes w)).

(** [db.votes.where('status').equals(s).toArray()] *)
Definition select_status (s : Status) (m : gmap string Vote.t) : list Vote.t :=
  filter (λ v, Vote.status v = s) (rows m).
Definition where_status_equals (s : Status) : M (list Vote.t) :=
  get (λ w, select_status s (db_votes w)).

(** A table is keyed by the [id] of its rows; every operation of the script
    keeps it so. *)
Definition keyed (m : gmap string Vote.t) : Prop :=
  map_Forall (λ k v, Vote.id v = k) m.

#[global] Instance keyed_dec m : Decision (keyed m).
Proof. unfold keyed. apply _. Defined.

(** ** Utils *)

(** [generateId]: ['vote-' + Date.now() + '-' +
    Math.random().toString(36).substring(2, 8)].  The clock reading [now] and
    the base-36 rendering [r36] of the random number are inputs. *)
Definition generateId (now : N) (r36 : string) : string :=
  "vote-" +:+ pretty now +:+ "-" +:+ String.substring 2 6 r36.

Definition hex_digit (n : N) : string :=
  String.substring (N.to_nat n) 1 "0123456789abcdef".

(** [b.toString(16).padStart(2, '0')] for a byte [b]. *)
Definition hex_byte (b : N) : string :=
  let s := if (b <? 16)%N then hex_digit b
           else hex_digit (b / 16) +:+ hex_digit (b mod 16) in
  if (String.length s <? 2)%nat then "0" +:+ s else s.

Section Script.

(** [crypto.subtle.digest('SHA-256', encoder.encode(s))] as bytes. *)
Variable sha256 : string → list N.

(** The values [Math.random()] returns to [sendVote], by call number. *)
Variable Math_random : nat → Q.

Definition signVote (voteId : string) : string :=
  String.concat "" (hex_byte <$> sha256 voteId).

(** ** Main actions *)

Definition loadVotes : M unit :=
  let* l := table_toArray in modify (set_votes l).

Definition castVote (now : N) (r36 uuid : string) : M unit :=
  let id := generateId now r36 in
  let idempotencyKey := uuid in
  let signature := signVote (id +:+ idempotencyKey) in
  table_add (Vote.mk id idempotencyKey queued 0 signature) ;;;
  loadVotes.

(** [Math.random() > 0.1]; the literal [0.1] is the double nearest to one
    tenth, written here as the rational it denotes. *)
Definition one_tenth : Q := 3602879701896397 # 36028797018963968.
Definition succeeds (r : Q) : bool := negb (Qle_bool r one_tenth).

Definition sendVote (vote : Vote.t) : M bool :=
  let* online := get isOnline in
  if negb online then ret false else
  (* await new Promise(resolve => setTimeout(resolve, 500)) *)
  modify (log_request (Vote.id vote)) ;;;
  let* r := get (λ w, Math_random (draws w)) in
  modify count_draw ;;;
  let success := succeeds r in
  if negb success then throw NetworkError else
  ret true.

(** The body of the loop of [processQueue], for one [vote] of the array. *)
Definition attempt (vote : Vote.t) : M unit :=
  try_catch
    (table_update (Vote.id vote) (mkChanges (Some sending) None) ;;;
     let* success := sendVote vote in
     if success then table_delete (Vote.id vote) else ret tt)
    (table_update (Vote.id vote)
       (mkChanges (Some failed) (Some (Vote.retries vote + 1)))).

Definition processQueue : M unit :=
  let* queued := where_status_equals queued in
  for_of queued attempt ;;;
  loadVotes.

Definition toggleOnline : M unit :=
  modify (λ w, set_isOnline (negb (isOnline w)) w).

(** ** Interleaving

    [setInterval(processQueue, 3000)] starts a sweep every three seconds
    whether or not the previous one has returned, and the click handlers
    run whenever a sweep is suspended.  A sweep in flight is a [Task]: the
    array [queued] it read when it started, the index of the loop, and
    where in the loop body it is suspended.  The table operations of one
    sweep take effect one at a time; the only long suspension is the timer
    of [sendVote], and that is where a task is [Awaiting]. *)

Inductive Phase : Type := AtLoop | Awaiting | Finished.

Record Task : Type := mkTask {
  task_queued : list Vote.t;
  task_pos : nat;
  task_phase : Phase
}.

Record System : Type := mkSystem {
  world : World;
  tasks : list Task
}.

Inductive Event : Type :=
  | Cast (now : N) (r36 uuid : string)   (* click on "Cast Vote" *)
  | Toggle                               (* click on "Go Offline/Online" *)
  | Tick                                 (* the interval fires *)
  | Resume (k : nat).                    (* sweep number [k] runs on *)

(** [sendVote] up to its timer: [Ok true] when the request is under way. *)
Definition sendVote_enter (vote : Vote.t) : M bool :=
  let* online := get isOnline in
  if negb online then ret false else
  modify (log_request (Vote.id vote)) ;;;
  ret true.

(** [sendVote] from its timer on. *)
Definition sendVote_leave : M bool :=
  let* r := get (λ w, Math_random (draws w)) in
  modify count_draw ;;;
  let success := succeeds r in
  if negb success then throw NetworkError else
  ret true.

(** The rest of the loop body once [sendVote] has come back from its timer,
    the [catch] included. *)
Definition settle (vote : Vote.t) : M unit :=
  try_catch
    (let* success := sendVote_leave in
     if success then table_delete (Vote.id vote) else ret tt)
    (table_update (Vote.id vote)
       (mkChanges (Some failed) (Some (Vote.retries vote + 1)))).

Definition resume (t : Task) (w : World) : Task * World :=
  match task_phase t with
  | AtLoop =>
      match task_queued t !! task_pos t with
      | None => (mkTask (task_queued t) (task_pos t) Finished, (loadVotes w).2)
      | Some vote =>
          let w1 := (table_update (Vote.id vote)
                       (mkChanges (Some sending) None) w).2 in
          match sendVote_enter vote w1 with
          | (Ok true, w2) => (mkTask (task_queued t) (task_pos t) Awaiting, w2)
          | (_, w2) => (mkTask (task_queued t) (S (task_pos t)) AtLoop, w2)
          end
      end
  | Awaiting =>
      match task_queued t !! task_pos t with
      | None => (t, w)
      | Some vote =>
          (mkTask (task_queued t) (S (task_pos t)) AtLoop, (settle vote w).2)
      end
  | Finished => (t, w)
  end.

Definition step (e : Event) (s : System) : System :=
  match e with
  | Cast now r36 uuid => mkSystem (castVote now r36 uuid (world s)).2 (tasks s)
  | Toggle => mkSystem (toggleOnline (world s)).2 (tasks s)
  | Tick =>
      mkSystem (world s)
               (tasks s ++ [mkTask (select_status queued (db_votes (world s)))
                                   0 AtLoop])
  | Resume k =>
      match tasks s !! k with
      | None => s
      | Some t =>
          let '(t', w') := resume t (world s) in
          mkSystem w' (<[k := t']> (tasks s))
      end
  end.

Definition run (evs : list Event) (s : System) : System :=
  foldl (λ s e, step e s) s evs.

(** The requests a step puts on the wire, with the sweep that makes them. *)
Definition calls (e : Event) (s : System) : list (nat * string) :=
  match e with
  | Resume k =>
      match tasks s !! k with
      | Some (mkTask q i AtLoop) =>
          match q !! i with
          | Some vote => if isOnline (world s) then [(k, Vote.id vote)] else []
          | None => []
          end
      | _ => []
      end
  | _ => []
  end.

Fixpoint trace (evs : list Event) (s : System) : list (nat * string) :=
  match evs with
  | [] => []
  | e :: rest => calls e s ++ trace rest (step e s)
  end.

(** The requests of sweep [k] in a trace. *)
Definition requests_of (k : nat) (tr : list (nat * string)) : list string :=
  (filter (λ c, c.1 = k) tr).*2.

(** ** Notions the statements use *)

(** What a task does to the table when it runs on. *)
Inductive Effect : Type :=
  | Nothing
  | Claim (vote : Vote.t)         (* [update(vote.id, {status: 'sending'})] *)
  | Remove (vote : Vote.t)        (* [delete(vote.id)] *)
  | MarkFailed (vote : Vote.t).   (* the [update] of the [catch] *)

Definition effect_on (eff : Effect) (m : gmap string Vote.t)
  : gmap string Vote.t :=
  match eff with
  | Nothing => m
  | Claim vote => alter to_sending (Vote.id vote) m
  | Remove vote => delete (Vote.id vote) m
  | MarkFailed vote => alter (to_failed vote) (Vote.id vote) m
  end.

Definition resume_effect (t : Task) (w : World) : Effect :=
  match task_phase t, task_queued t !! task_pos t with
  | AtLoop, Some vote => Claim vote
  | Awaiting, Some vote =>
      if succeeds (Math_random (draws w)) then Remove vote else MarkFailed vote
  | _, _ => Nothing
  end.

(** What a step of the machine does to the table, casts apart. *)
Definition step_effect (e : Event) (s : System) : Effect :=
  match e with
  | Resume k =>
      match tasks s !! k with
      | Some t => resume_effect t (world s)
      | None => Nothing
      end
  | _ => Nothing
  end.

Definition cast_row (e : Event) : option Vote.t :=
  match e with
  | Cast now r36 uuid =>
      Some (Vote.mk (generateId now r36) uuid queued 0
              (signVote (generateId now r36 +:+ uuid)))
  | _ => None
  end.

(** The step [e] takes the row at [key] out of the table. *)
Definition removed_by (key : string) (e : Event) (s : System) : Prop :=
  is_Some (db_votes (world s) !! key)
  ∧ db_votes (world (step e s)) !! key = None.

(** The step [e] is a sweep coming back from the timer of [sendVote] for the
    row [key] with a draw above one tenth: [sendVote] returns [true]. *)
Definition delivers (key : string) (e : Event) (s : System) : Prop :=
  ∃ k t vote,
    e = Resume k ∧ tasks s !! k = Some t ∧ task_phase t = Awaiting
    ∧ task_queued t !! task_pos t = Some vote ∧ Vote.id vote = key
    ∧ succeeds (Math_random (draws (world s))) = true.

(** What holds of every state the script can be in: a row that is still
    [queued] has never failed, no row has failed more than once, and the
    arrays of the sweeps in flight hold rows as they were when [queued]. *)
Definition consistent (s : System) : Prop :=
  (∀ key v, db_votes (world s) !! key = Some v →
            Vote.retries v ≤ 1 ∧ (Vote.status v = queued → Vote.retries v = 0))
  ∧ (∀ k t vote, tasks s !! k = Some t → vote ∈ task_queued t →
                 Vote.retries vote = 0).

(** The row at [key] is in the table before and after every step of [evs]. *)
Fixpoint stays (key : string) (evs : list Event) (s : System) : Prop :=
  is_Some (db_votes (world s) !! key)
  ∧ match evs with
    | [] => True
    | e :: rest => stays key rest (step e s)
    end.

(** How far into its array a sweep has put requests on the wire. *)
Definition progress (t : Task) : nat :=
  match task_phase t with
  | Awaiting => S (task_pos t)
  | _ => task_pos t
  end.

(** Sweep [k] goes over the array [q] and [acc] lists its requests so far. *)
Definition sweeping (k : nat) (q : list Vote.t) (acc : list string)
    (s : System) : Prop :=
  ∃ t, tasks s !! k = Some t ∧ task_queued t = q
       ∧ acc `sublist_of` (Vote.id <$> take (progress t) q).


(** A state in which the counter of every row tells whether the row has
    failed: never negative, and exactly one on a [failed] row. *)
Definition counted (s : System) : Prop :=
  consistent s
  ∧ ∀ key v, db_votes (world s) !! key = Some v →
             0 ≤ Vote.retries v ∧ (Vote.status v = failed → Vote.retries v = 1).

(** ** Mounting and unmounting

    [onMounted(async () => { await loadVotes(); syncInterval =
    setInterval(processQueue, 3000) })] and [onUnmounted(() =>
    clearInterval(syncInterval))].  Vue runs each hook once, the second not
    before the first; the callback of [onMounted] is suspended at its
    [await] and runs on later.  [intervals] are the handles of the intervals
    that are set and not cleared, [next_handle] the handle [setInterval]
    returns next. *)

Inductive Mounting : Type := NotMounted | Loading | Mounted.

Record App : Type := mkApp {
  system : System;
  syncInterval : option nat;
  intervals : list nat;
  next_handle : nat;
  mounting : Mounting;
  unmounted : bool
}.

Inductive AppEvent : Type :=
  | Mount                                (* the [onMounted] hook is called *)
  | Loaded                               (* its [await loadVotes()] returns *)
  | Unmount                              (* the [onUnmounted] hook is called *)
  | Fire (h : nat)                       (* the interval [h] is due *)
  | Click (e : Event).                   (* [Cast], [Toggle], or [Resume] *)

(** [clearInterval(h)]: [null] and handles that are not set are ignored. *)
Definition clearInterval (h : option nat) (l : list nat) : list nat :=
  match h with
  | Some n => filter (λ m, m ≠ n) l
  | None => l
  end.

Definition app_step (ev : AppEvent) (a : App) : App :=
  match ev with
  | Mount =>
      match mounting a with
      | NotMounted =>
          mkApp (system a) (syncInterval a) (intervals a) (next_handle a)
                Loading (unmounted a)
      | _ => a
      end
  | Loaded =>
      match mounting a with
      | Loading =>
          mkApp (mkSystem (loadVotes (world (system a))).2 (tasks (system a)))
                (Some (next_handle a)) (next_handle a :: intervals a)
                (S (next_handle a)) Mounted (unmounted a)
      | _ => a
      end
  | Unmount =>
      match mounting a, unmounted a with
      | NotMounted, _ | _, true => a
      | _, false =>
          mkApp (system a) (syncInterval a)
                (clearInterval (syncInterval a) (intervals a))
                (next_handle a) (mounting a) true
      end
  | Fire h =>
      if decide (h ∈ intervals a)
      then mkApp (step Tick (system a)) (syncInterval a) (intervals a)
                 (next_handle a) (mounting a) (unmounted a)
      else a
  | Click Tick => a
  | Click e =>
      mkApp (step e (system a)) (syncInterval a) (intervals a)
            (next_handle a) (mounting a) (unmounted a)
  end.

Definition app_run (evs : list AppEvent) (a : App) : App :=
  foldl (λ a ev, app_step ev a) a evs.

(** Sweep [k] goes over the array [q], and the row at [key], if it is still
    [queued], is one of the entries the sweep has yet to claim. *)
Definition awaits_claim (k : nat) (q : list Vote.t) (key : string)
    (s : System) : Prop :=
  ∃ t u, tasks s !! k = Some t ∧ task_queued t = q
         ∧ (task_phase t = Finished → q !! task_pos t = None)
         ∧ db_votes (world s) !! key = Some u
         ∧ (Vote.status u = queued →
            key ∈ Vote.id <$> drop (progress t) q).

End Script.

(** ** Sweep after sweep *)

(** [n] firings of the interval, each sweep returning before the next. *)
Fixpoint sweeps (Math_random : nat → Q) (n : nat) (w : World) : World :=
  match n with
  | O => w
  | S n' => sweeps Math_random n' (processQueue Math_random w).2
  end.

(** A string without the character [-]. *)
Fixpoint no_dash (s : string) : Prop :=
  match s with
  | EmptyString => True
  | String c rest => c ≠ "-"%char ∧ no_dash rest
  end.

(** ** Inputs of the runs below *)

Definition no_digest : string → list N := λ _, [171; 5]%N.
Definition always_fine : nat → Q := λ _, 1 # 2.
Definition always_fails : nat → Q := λ _, 0 # 1.
(** A backend that fails the first request and accepts every later one. *)
Definition second_time_lucky : nat → Q :=
  λ n, match n with O => 0 # 1 | S _ => 1 # 2 end.
(** A backend that accepts the first request and fails every later one. *)
Definition first_time_lucky : nat → Q :=
  λ n, match n with O => 1 # 2 | S _ => 0 # 1 end.

Definition fresh_world : World := mkWorld ∅ [] true 0 [].
Definition one_vote : World :=
  (castVote no_digest 1700 "0.4fzyo82mvyr" "u-1" fresh_world).2.
Definition one_vote_offline : World := set_isOnline false one_vote.
Definition failed_once : World := (processQueue always_fails one_vote).2.
Definition the_row (st : Status) (n : Z) : Vote.t :=
  Vote.mk "vote-1700-4fzyo8" "u-1" st n "ab05".
(** A table holding one [queued] row that already counts [k] retries. *)
Definition retried (k : Z) : World :=
  mkWorld {[ "vote-1700-4fzyo8" := the_row queued k ]} [] true 0 [].
(** The page before Vue has mounted it, on an empty table. *)
Definition fresh_app : App :=
  mkApp (mkSystem fresh_world []) None [] 1 NotMounted false.

(** * Properties *)

(** ** The table *)

Lemma keyed_empty : keyed ∅.
Proof. intros k v H. by rewrite lookup_empty in H. Qed.

Lemma keyed_insert m v : keyed m → keyed (<[Vote.id v := v]> m).
Proof.
  intros Hm k u. rewrite lookup_insert. case_decide; [naive_solver | apply Hm].
Qed.

Lemma apply_changes_id c v : Vote.id (apply_changes c v) = Vote.id v.
Proof. done. Qed.

Lemma keyed_alter m c key : keyed m → keyed (alter (apply_changes c) key m).
Proof.
  intros Hm k u. rewrite lookup_alter. case_decide as Hk; [| apply Hm].
  subst k. destruct (m !! key) as [u0|] eqn:E; simpl; [| done].
  intros [= <-]. rewrite apply_changes_id. by apply Hm.
Qed.

Lemma keyed_delete m key : keyed m → keyed (delete key m).
Proof.
  intros Hm k u. rewrite lookup_delete. case_decide; [done | apply Hm].
Qed.

#[global] Instance key_le_total : Total key_le.
Proof.
  intros a b. unfold key_le.
  destruct (String.leb_total (Vote.id a) (Vote.id b)) as [->| ->]; simpl; auto.
Qed.

(** [rows] lists the table by ascending [id]. *)
Lemma rows_sorted m : Sorted key_le (rows m).
Proof. apply Sorted_merge_sort, _. Qed.

Lemma elem_of_rows m v : v ∈ rows m ↔ ∃ k, m !! k = Some v.
Proof.
  unfold rows. rewrite merge_sort_Permutation, list_elem_of_fmap. split.
  - intros [[k u] [-> H]]. exists k. by apply elem_of_map_to_list.
  - intros [k H]. exists (k, v). split; [done | by apply elem_of_map_to_list].
Qed.

Lemma elem_of_rows_keyed m v :
  keyed m → v ∈ rows m ↔ m !! Vote.id v = Some v.
Proof.
  intros Hm. rewrite elem_of_rows. split; [| eauto].
  intros [k H]. by rewrite (Hm _ _ H).
Qed.

Lemma NoDup_rows_ids m : keyed m → NoDup (Vote.id <$> rows m).
Proof.
  intros Hm. unfold rows. rewrite merge_sort_Permutation.
  assert (Vote.id <$> (map_to_list m).*2 = (map_to_list m).*1) as ->.
  { rewrite <- list_fmap_compose. apply list_fmap_ext.
    intros i [k v] Hi. simpl. apply Hm.
    apply elem_of_map_to_list. by eapply list_elem_of_lookup_2. }
  apply NoDup_fst_map_to_list.
Qed.

Lemma elem_of_select_status s m v :
  v ∈ select_status s m ↔ v ∈ rows m ∧ Vote.status v = s.
Proof. unfold select_status. rewrite list_elem_of_filter. tauto. Qed.

Lemma NoDup_select_status_ids s m :
  keyed m → NoDup (Vote.id <$> select_status s m).
Proof.
  intros Hm. eapply sublist_NoDup; [by apply NoDup_rows_ids |].
  apply fmap_sublist, sublist_filter.
Qed.

Lemma select_status_status s m v : v ∈ select_status s m → Vote.status v = s.
Proof. rewrite elem_of_select_status. tauto. Qed.

(** ** One pass of the loop body *)

Ltac run_monad :=
  unfold attempt, settle, sendVote, sendVote_enter, sendVote_leave,
    table_update, table_delete, table_toArray, where_status_equals, loadVotes,
    toggleOnline, try_catch, bind, ret, throw, get, modify; simpl.

Section Sweep.

Variable Math_random : nat → Q.

Lemma attempt_offline vote w :
  isOnline w = false →
  attempt Math_random vote w
  = (Ok tt, set_db (alter to_sending (Vote.id vote) (db_votes w)) w).
Proof. intros H. run_monad. by rewrite H. Qed.

Lemma attempt_success vote w :
  isOnline w = true →
  succeeds (Math_random (draws w)) = true →
  attempt Math_random vote w
  = (Ok tt,
     mkWorld (delete (Vote.id vote)
                (alter to_sending (Vote.id vote) (db_votes w)))
             (votes w) (isOnline w) (S (draws w))
             (wire w ++ [Vote.id vote])).
Proof.
  intros H1 H2. run_monad. rewrite H1; simpl. rewrite H2; simpl.
  unfold set_db; simpl. by rewrite ?H1.
Qed.

Lemma attempt_failure vote w :
  isOnline w = true →
  succeeds (Math_random (draws w)) = false →
  attempt Math_random vote w
  = (Ok tt,
     mkWorld (alter (to_failed vote) (Vote.id vote)
                (alter to_sending (Vote.id vote) (db_votes w)))
             (votes w) (isOnline w) (S (draws w))
             (wire w ++ [Vote.id vote])).
Proof.
  intros H1 H2. run_monad. rewrite H1; simpl. rewrite H2; simpl.
  unfold set_db; simpl. by rewrite ?H1.
Qed.

(** The three equations cover every world. *)
Lemma attempt_cases vote w :
  (isOnline w = false ∧
   attempt Math_random vote w
   = (Ok tt, set_db (alter to_sending (Vote.id vote) (db_votes w)) w))
  ∨ (isOnline w = true ∧ succeeds (Math_random (draws w)) = true ∧
     attempt Math_random vote w
     = (Ok tt,
        mkWorld (delete (Vote.id vote)
                   (alter to_sending (Vote.id vote) (db_votes w)))
                (votes w) (isOnline w) (S (draws w))
                (wire w ++ [Vote.id vote])))
  ∨ (isOnline w = true ∧ succeeds (Math_random (draws w)) = false ∧
     attempt Math_random vote w
     = (Ok tt,
        mkWorld (alter (to_failed vote) (Vote.id vote)
                   (alter to_sending (Vote.id vote) (db_votes w)))
                (votes w) (isOnline w) (S (draws w))
                (wire w ++ [Vote.id vote]))).
Proof.
  assert (isOnline w = true ∨ isOnline w = false) as [Ho|Ho]
    by (destruct (isOnline w); auto).
  - assert (succeeds (Math_random (draws w)) = true
            ∨ succeeds (Math_random (draws w)) = false) as [Hs|Hs]
      by (destruct (succeeds _); auto).
    + right; left. split_and!; [done..|]. by apply attempt_success.
    + right; right. split_and!; [done..|]. by apply attempt_failure.
  - left. split; [done|]. by apply attempt_offline.
Qed.

Lemma attempt_ok vote w : (attempt Math_random vote w).1 = Ok tt.
Proof.
  destruct (attempt_cases vote w) as [[_ ->]|[(_ & _ & ->)|(_ & _ & ->)]]; done.
Qed.

Lemma attempt_isOnline vote w :
  isOnline (attempt Math_random vote w).2 = isOnline w.
Proof.
  destruct (attempt_cases vote w) as [[_ ->]|[(_ & _ & ->)|(_ & _ & ->)]]; done.
Qed.

Lemma attempt_draws vote w :
  draws (attempt Math_random vote w).2
  = if isOnline w then S (draws w) else draws w.
Proof.
  destruct (attempt_cases vote w) as [[Ho ->]|[(Ho & _ & ->)|(Ho & _ & ->)]];
    by rewrite Ho.
Qed.

Lemma attempt_wire vote w :
  wire (attempt Math_random vote w).2
  = if isOnline w then wire w ++ [Vote.id vote] else wire w.
Proof.
  destruct (attempt_cases vote w) as [[Ho ->]|[(Ho & _ & ->)|(Ho & _ & ->)]];
    by rewrite Ho.
Qed.

Lemma attempt_other vote w key :
  key ≠ Vote.id vote →
  db_votes (attempt Math_random vote w).2 !! key = db_votes w !! key.
Proof.
  intros Hk.
  destruct (attempt_cases vote w) as [[_ ->]|[(_ & _ & ->)|(_ & _ & ->)]];
    simpl; rewrite ?lookup_delete_ne, ?lookup_alter_ne by done; done.
Qed.

Lemma attempt_keyed vote w :
  keyed (db_votes w) → keyed (db_votes (attempt Math_random vote w).2).
Proof.
  intros Hm.
  destruct (attempt_cases vote w) as [[_ ->]|[(_ & _ & ->)|(_ & _ & ->)]];
    simpl; auto using keyed_alter, keyed_delete.
Qed.

(** ** The loop *)

Lemma for_of_attempt_ok l w : (for_of l (attempt Math_random) w).1 = Ok tt.
Proof.
  revert w. induction l as [|x l IH]; intros w; [done|].
  simpl. unfold bind. pose proof (attempt_ok x w) as Hx.
  destruct (attempt Math_random x w) as [[[]|e] w1]; simpl in *; [apply IH | done].
Qed.

Lemma for_of_attempt_cons x l w :
  for_of (x :: l) (attempt Math_random) w
  = for_of l (attempt Math_random) (attempt Math_random x w).2.
Proof.
  simpl. unfold bind. pose proof (attempt_ok x w) as Hx.
  destruct (attempt Math_random x w) as [[[]|e] w1]; simpl in *; done.
Qed.

Lemma for_of_attempt_isOnline l w :
  isOnline (for_of l (attempt Math_random) w).2 = isOnline w.
Proof.
  revert w. induction l as [|x l IH]; intros w; [done|].
  by rewrite for_of_attempt_cons, IH, attempt_isOnline.
Qed.

Lemma for_of_attempt_other l w key :
  key ∉ Vote.id <$> l →
  db_votes (for_of l (attempt Math_random) w).2 !! key = db_votes w !! key.
Proof.
  revert w. induction l as [|x l IH]; intros w Hk; [done|].
  rewrite fmap_cons, not_elem_of_cons in Hk. destruct Hk as [Hx Hl].
  by rewrite for_of_attempt_cons, IH, attempt_other.
Qed.

Lemma for_of_attempt_keyed l w :
  keyed (db_votes w) →
  keyed (db_votes (for_of l (attempt Math_random) w).2).
Proof.
  revert w. induction l as [|x l IH]; intros w Hm; [done|].
  rewrite for_of_attempt_cons. by apply IH, attempt_keyed.
Qed.

Lemma for_of_attempt_offline l w :
  isOnline w = false →
  draws (for_of l (attempt Math_random) w).2 = draws w
  ∧ wire (for_of l (attempt Math_random) w).2 = wire w.
Proof.
  revert w. induction l as [|x l IH]; intros w Ho; [done|].
  rewrite for_of_attempt_cons.
  destruct (IH (attempt Math_random x w).2) as [-> ->].
  { by rewrite attempt_isOnline. }
  by rewrite attempt_draws, attempt_wire, Ho.
Qed.

Lemma for_of_attempt_online l w :
  isOnline w = true →
  draws (for_of l (attempt Math_random) w).2 = (draws w + length l)%nat
  ∧ wire (for_of l (attempt Math_random) w).2 = wire w ++ (Vote.id <$> l).
Proof.
  revert w. induction l as [|x l IH]; intros w Ho.
  { simpl. by rewrite Nat.add_0_r, app_nil_r. }
  rewrite for_of_attempt_cons.
  destruct (IH (attempt Math_random x w).2) as [-> ->].
  { by rewrite attempt_isOnline. }
  rewrite attempt_draws, attempt_wire, Ho. simpl.
  split; [lia | by rewrite <- app_assoc].
Qed.

(** [processQueue] never rejects, and is the loop over the rows that were
    [queued] when it started, followed by [loadVotes]. *)
Lemma processQueue_eq w :
  processQueue Math_random w
  = (Ok tt,
     let w' := (for_of (select_status queued (db_votes w))
                       (attempt Math_random) w).2 in
     set_votes (rows (db_votes w')) w').
Proof.
  unfold processQueue, where_status_equals, loadVotes, table_toArray.
  unfold bind at 1. unfold get at 1. unfold bind at 1.
  pose proof (for_of_attempt_ok (select_status queued (db_votes w)) w) as Hok.
  destruct (for_of _ _ w) as [[[]|e] w1]; simpl in *; done.
Qed.

(** What a sweep that runs offline leaves at each key. *)
Lemma for_of_attempt_offline_lookup l w key :
  isOnline w = false →
  db_votes (for_of l (attempt Math_random) w).2 !! key
  = if decide (key ∈ Vote.id <$> l)
    then to_sending <$> db_votes w !! key
    else db_votes w !! key.
Proof.
  revert w. induction l as [|x l IH]; intros w Ho.
  { done. }
  rewrite for_of_attempt_cons, IH by (by rewrite attempt_isOnline).
  rewrite (attempt_offline x w Ho), fmap_cons. cbn [snd set_db db_votes].
  destruct (decide (key = Vote.id x)) as [->|Hne].
  - rewrite lookup_alter_eq.
    case_decide as H1; case_decide as H2;
      [by destruct (db_votes w !! Vote.id x) | | done |];
      exfalso; apply H2, list_elem_of_here.
  - rewrite lookup_alter_ne by done.
    case_decide as H1; case_decide as H2; try done;
      rewrite elem_of_cons in H2; naive_solver.
Qed.

(** What a sweep that runs online leaves at the key of the row it handles
    at position [i]: the outcome of that row is the draw number
    [draws w + i]. *)
Lemma for_of_attempt_online_lookup l w i vote :
  isOnline w = true →
  NoDup (Vote.id <$> l) →
  l !! i = Some vote →
  db_votes (for_of l (attempt Math_random) w).2 !! Vote.id vote
  = if succeeds (Math_random (draws w + i))
    then None
    else to_failed vote <$> (to_sending <$> db_votes w !! Vote.id vote).
Proof.
  revert w i. induction l as [|x l IH]; intros w i Ho Hnd Hi; [done|].
  rewrite fmap_cons, NoDup_cons in Hnd. destruct Hnd as [Hx Hnd].
  rewrite for_of_attempt_cons. destruct i as [|i]; simpl in Hi.
  - injection Hi as ->. rewrite for_of_attempt_other by done.
    rewrite Nat.add_0_r.
    destruct (succeeds (Math_random (draws w))) eqn:Hs.
    + rewrite (attempt_success vote w Ho Hs). simpl. apply lookup_delete_eq.
    + rewrite (attempt_failure vote w Ho Hs). simpl.
      by rewrite !lookup_alter_eq.
  - assert (Vote.id vote ≠ Vote.id x) as Hne.
    { intros E. apply Hx. rewrite <- E.
      apply list_elem_of_fmap. exists vote. split; [done|].
      by eapply list_elem_of_lookup_2. }
    rewrite (IH _ i) by (rewrite ?attempt_isOnline; done).
    rewrite attempt_draws, Ho, attempt_other by done.
    by replace (S (draws w) + i)%nat with (draws w + S i)%nat by lia.
Qed.

End Sweep.

(** ** Casting *)

Section Casting.

Variable sha256 : string → list N.

Lemma castVote_fresh now r36 uuid w :
  db_votes w !! generateId now r36 = None →
  castVote sha256 now r36 uuid w
  = (Ok tt,
     let m := <[generateId now r36 :=
                Vote.mk (generateId now r36) uuid queued 0
                  (signVote sha256 (generateId now r36 +:+ uuid))]>
              (db_votes w) in
     set_votes (rows m) (set_db m w)).
Proof.
  intros H. unfold castVote, table_add, loadVotes, table_toArray.
  unfold bind at 1. simpl. by rewrite H.
Qed.

Lemma castVote_taken now r36 uuid w :
  is_Some (db_votes w !! generateId now r36) →
  castVote sha256 now r36 uuid w = (Throw ConstraintError, w).
Proof.
  intros [v H]. unfold castVote, table_add. unfold bind at 1. simpl.
  by rewrite H.
Qed.

End Casting.

(** ** One step of the machine *)

Section Machine.

Variable sha256 : string → list N.
Variable Math_random : nat → Q.

Lemma resume_db t w :
  db_votes (resume Math_random t w).2
  = effect_on (resume_effect Math_random t w) (db_votes w).
Proof.
  unfold resume, resume_effect.
  destruct (task_phase t), (task_queued t !! task_pos t) as [vote|];
    try done.
  - run_monad. by destruct (isOnline w).
  - run_monad. by destruct (succeeds (Math_random (draws w))).
Qed.

Lemma resume_queued t w :
  task_queued (resume Math_random t w).1 = task_queued t.
Proof.
  unfold resume.
  destruct (task_phase t), (task_queued t !! task_pos t) as [vote|];
    try done.
  run_monad. by destruct (isOnline w).
Qed.


Lemma effect_on_keyed eff m : keyed m → keyed (effect_on eff m).
Proof.
  destruct eff; simpl; auto using keyed_alter, keyed_delete.
Qed.

(** The table after a step: a cast that goes through inserts, a task that
    runs on has its effect, everything else leaves the table alone. *)
Lemma step_db e s :
  db_votes (world (step sha256 Math_random e s))
  = match cast_row sha256 e with
    | Some row =>
        match db_votes (world s) !! Vote.id row with
        | None => <[Vote.id row := row]> (db_votes (world s))
        | Some _ => db_votes (world s)
        end
    | None => effect_on (step_effect Math_random e s) (db_votes (world s))
    end.
Proof.
  destruct e as [now r36 uuid| | |k]; simpl; try done.
  - destruct (db_votes (world s) !! generateId now r36) eqn:E.
    + by rewrite castVote_taken.
    + by rewrite castVote_fresh.
  - destruct (tasks s !! k) as [t|]; [| done].
    pose proof (resume_db t (world s)) as H.
    by destruct (resume Math_random t (world s)).
Qed.

Lemma step_keyed e s :
  keyed (db_votes (world s)) →
  keyed (db_votes (world (step sha256 Math_random e s))).
Proof.
  intros Hm. rewrite step_db. destruct (cast_row sha256 e) as [row|].
  - destruct (db_votes (world s) !! Vote.id row); auto using keyed_insert.
  - by apply effect_on_keyed.
Qed.

(** ** Removal *)

Lemma step_effect_Remove e s vote :
  step_effect Math_random e s = Remove vote ↔ delivers Math_random (Vote.id vote) e s
                                  ∧ cast_row sha256 e = None
                                  ∧ ∃ k t, e = Resume k ∧ tasks s !! k = Some t
                                    ∧ task_queued t !! task_pos t = Some vote.
Proof.
  split.
  - destruct e as [| | |k]; simpl; try done.
    destruct (tasks s !! k) as [t|] eqn:Et; [| done].
    unfold resume_effect.
    destruct (task_phase t) eqn:Ep,
      (task_queued t !! task_pos t) as [v|] eqn:Ev; try done.
    destruct (succeeds _) eqn:Es; [| done].
    intros [= ->]. split_and!; [| done | by eauto].
    exists k, t, vote. by rewrite Et.
  - intros [(k & t & v & -> & Et & Ep & Ev & _ & Es) (_ & k' & t' & [= <-] & Et' & Ev')].
    simpl. rewrite Et. unfold resume_effect. rewrite Ep, Ev, Es.
    rewrite Et' in Et. injection Et as ->. congruence.
Qed.

(** C4. A step takes a row out of the table exactly when the row is there
    and the step is a delivery of it that reported success; and after a
    delivery that reported success the row is not in the table. *)
Theorem removal_iff_successful_delivery key e s :
  (removed_by sha256 Math_random key e s
   ↔ is_Some (db_votes (world s) !! key) ∧ delivers Math_random key e s)
  ∧ (delivers Math_random key e s →
     db_votes (world (step sha256 Math_random e s)) !! key = None).
Proof.
  assert (delivers Math_random key e s →
          db_votes (world (step sha256 Math_random e s)) !! key = None) as Hd.
  { intros (k & t & vote & -> & Et & Ep & Ev & <- & Es).
    rewrite step_db. simpl. rewrite Et. unfold resume_effect.
    rewrite Ep, Ev, Es. simpl. apply lookup_delete_eq. }
  split; [| done]. unfold removed_by. split; [| naive_solver].
  intros [Hin Hout]. split; [done|]. revert Hout. rewrite step_db.
  destruct (cast_row sha256 e) as [row|] eqn:Ec.
  - destruct (db_votes (world s) !! Vote.id row) eqn:Er.
    + intros Hout. rewrite Hout in Hin. by destruct Hin.
    + rewrite lookup_insert. case_decide; [done|].
      intros Hout. rewrite Hout in Hin. by destruct Hin.
  - destruct (step_effect Math_random e s) as [|vote|vote|vote] eqn:Ee; simpl.
    + intros Hout. rewrite Hout in Hin. by destruct Hin.
    + rewrite lookup_alter_None. intros Hout. rewrite Hout in Hin.
      by destruct Hin.
    + rewrite lookup_delete. case_decide as Hk.
      * intros _. subst key. by apply step_effect_Remove in Ee as [? _].
      * intros Hout. rewrite Hout in Hin. by destruct Hin.
    + rewrite lookup_alter_None. intros Hout. rewrite Hout in Hin.
      by destruct Hin.
Qed.

(** ** Rows and sweeps in flight *)

Lemma step_effect_source e s vote :
  step_effect Math_random e s ∈ [Claim vote; Remove vote; MarkFailed vote] →
  ∃ k t, e = Resume k ∧ tasks s !! k = Some t
         ∧ task_queued t !! task_pos t = Some vote.
Proof.
  rewrite !elem_of_cons, elem_of_nil.
  destruct e as [| | |k]; simpl; [naive_solver..|].
  destruct (tasks s !! k) as [t|] eqn:Et; [| naive_solver].
  unfold resume_effect.
  destruct (task_phase t), (task_queued t !! task_pos t) as [v|] eqn:Ev;
    [| naive_solver | | naive_solver..].
  - intros H. exists k, t. assert (v = vote) as -> by naive_solver. done.
  - destruct (succeeds _); intros H; exists k, t;
      assert (v = vote) as -> by naive_solver; done.
Qed.

(** A step keeps the array of every sweep in flight, and only the interval
    adds a sweep. *)
Lemma step_tasks_lookup e s j t' :
  tasks (step sha256 Math_random e s) !! j = Some t' →
  (∃ t, tasks s !! j = Some t ∧ task_queued t' = task_queued t)
  ∨ (e = Tick ∧ j = length (tasks s)
     ∧ t' = mkTask (select_status queued (db_votes (world s))) 0 AtLoop).
Proof.
  destruct e as [| | |k]; simpl; [eauto..| |].
  - rewrite lookup_snoc_Some. intros [[_ H]|[-> <-]]; eauto.
  - destruct (tasks s !! k) as [t|] eqn:Et; [| eauto].
    pose proof (resume_queued t (world s)) as Hq.
    destruct (resume Math_random t (world s)) as [t1 w1]. simpl in *.
    rewrite list_lookup_insert_Some. intros [(-> & -> & _)|[_ H]]; eauto.
Qed.

(** ** The retry counter *)

Lemma consistent_step e s :
  consistent s → consistent (step sha256 Math_random e s).
Proof.
  intros [Hdb Htk]. split.
  - intros key v. rewrite step_db. destruct (cast_row sha256 e) as [row|] eqn:Ec.
    + destruct (db_votes (world s) !! Vote.id row); [apply Hdb|].
      rewrite lookup_insert. case_decide; [| apply Hdb].
      intros [= <-]. destruct e; simplify_eq/=. done.
    + destruct (step_effect Math_random e s) as [|vote|vote|vote] eqn:Ee; simpl.
      * apply Hdb.
      * rewrite lookup_alter_Some. intros [(_ & u & Hu & ->)|[_ Hu]];
          [| by eapply Hdb]. simpl. split; [by eapply Hdb | done].
      * rewrite lookup_delete_Some. intros [_ Hu]. by eapply Hdb.
      * rewrite lookup_alter_Some. intros [(_ & u & Hu & ->)|[_ Hu]];
          [| by eapply Hdb]. simpl.
        destruct (step_effect_source e s vote) as (k & t & _ & Et & Ev).
        { rewrite Ee. repeat constructor. }
        rewrite (Htk k t vote Et) by (by eapply list_elem_of_lookup_2).
        done.
  - intros j t' vote Ht' Hv.
    destruct (step_tasks_lookup e s j t' Ht') as [(t & Et & Eq)|(_ & _ & ->)].
    + rewrite Eq in Hv. by eapply Htk.
    + simpl in Hv. apply elem_of_select_status in Hv as [Hv Hq].
      apply elem_of_rows in Hv as [key Hv]. by apply (Hdb key vote Hv).
Qed.

Lemma consistent_run evs s :
  consistent s → consistent (run sha256 Math_random evs s).
Proof.
  revert s. induction evs as [|e evs IH]; intros s Hs; [done|].
  simpl. by apply IH, consistent_step.
Qed.

(** After a restart nothing is in flight; whatever table an earlier session
    of the script left behind is consistent when that session was. *)
Lemma consistent_restart s w :
  consistent s → db_votes w = db_votes (world s) → consistent (mkSystem w []).
Proof. intros [Hdb _] E. split; simpl; [by rewrite E | done]. Qed.

Lemma consistent_empty on n l : consistent (mkSystem (mkWorld ∅ [] on n l) []).
Proof. split; simpl; [intros ??; by rewrite lookup_empty | done]. Qed.

Lemma step_retries e s key v v' :
  consistent s →
  db_votes (world s) !! key = Some v →
  db_votes (world (step sha256 Math_random e s)) !! key = Some v' →
  Vote.retries v ≤ Vote.retries v'.
Proof.
  intros [Hdb Htk] Hv. rewrite step_db.
  destruct (cast_row sha256 e) as [row|] eqn:Ec.
  - destruct (db_votes (world s) !! Vote.id row) eqn:Er.
    + rewrite Hv. by intros [= <-].
    + rewrite lookup_insert. case_decide; [congruence|].
      rewrite Hv. by intros [= <-].
  - destruct (step_effect Math_random e s) as [|vote|vote|vote] eqn:Ee; simpl.
    + rewrite Hv. by intros [= <-].
    + rewrite lookup_alter.
      case_decide; simplify_eq; rewrite Hv; simpl; by intros [= <-].
    + rewrite lookup_delete. case_decide; [done|].
      rewrite Hv. by intros [= <-].
    + rewrite lookup_alter.
      case_decide; simplify_eq; rewrite Hv; simpl; intros [= <-]; [| done].
      simpl.
      destruct (step_effect_source e s vote) as (k & t & _ & Et & Ev).
      { rewrite Ee. repeat constructor. }
      rewrite (Htk k t vote Et) by (by eapply list_elem_of_lookup_2).
      by eapply Hdb.
Qed.

Lemma stays_head key evs s :
  stays sha256 Math_random key evs s → is_Some (db_votes (world s) !! key).
Proof. destruct evs; simpl; tauto. Qed.

(** C7. Over any sequence of casts, toggles, interval ticks and sweep steps
    during which a row stays in the table, its [retries] does not go down. *)
Theorem retries_never_decrease evs s key v v' :
  consistent s →
  stays sha256 Math_random key evs s →
  db_votes (world s) !! key = Some v →
  db_votes (world (run sha256 Math_random evs s)) !! key = Some v' →
  Vote.retries v ≤ Vote.retries v'.
Proof.
  revert s v. induction evs as [|e evs IH]; intros s v Hs Hst Hv Hv'.
  { simpl in Hv'. rewrite Hv in Hv'. by injection Hv' as ->. }
  simpl in Hst, Hv'. destruct Hst as [_ Hst].
  destruct (stays_head _ _ _ Hst) as [v1 Hv1].
  etrans; [by eapply step_retries |].
  eapply IH; [by apply consistent_step | done..].
Qed.

(** ** The requests of one sweep *)

Lemma resume_task t w :
  (resume Math_random t w).1
  = match task_phase t, task_queued t !! task_pos t with
    | AtLoop, Some vote =>
        if isOnline w then mkTask (task_queued t) (task_pos t) Awaiting
        else mkTask (task_queued t) (S (task_pos t)) AtLoop
    | AtLoop, None => mkTask (task_queued t) (task_pos t) Finished
    | Awaiting, Some vote => mkTask (task_queued t) (S (task_pos t)) AtLoop
    | _, _ => t
    end.
Proof.
  unfold resume.
  destruct (task_phase t), (task_queued t !! task_pos t) as [vote|];
    try done.
  run_monad. by destruct (isOnline w).
Qed.

Lemma resume_wire t w :
  wire (resume Math_random t w).2
  = match task_phase t, task_queued t !! task_pos t with
    | AtLoop, Some vote =>
        if isOnline w then wire w ++ [Vote.id vote] else wire w
    | _, _ => wire w
    end.
Proof.
  unfold resume.
  destruct (task_phase t), (task_queued t !! task_pos t) as [vote|];
    try done.
  - run_monad. by destruct (isOnline w).
  - run_monad. by destruct (succeeds (Math_random (draws w))).
Qed.

(** The trace lists what the script logs on the wire. *)
Lemma step_wire e s :
  wire (world (step sha256 Math_random e s))
  = wire (world s) ++ (calls e s).*2.
Proof.
  destruct e as [now r36 uuid| | |k]; simpl; rewrite ?app_nil_r; try done.
  - destruct (db_votes (world s) !! generateId now r36) eqn:E.
    + by rewrite castVote_taken.
    + by rewrite castVote_fresh.
  - destruct (tasks s !! k) as [t|] eqn:Et; [| by rewrite app_nil_r].
    pose proof (resume_wire t (world s)) as H.
    destruct (resume Math_random t (world s)) as [t1 w1]. simpl in *.
    rewrite H. destruct t as [q i ph]; simpl.
    destruct ph, (q !! i) as [vote|]; rewrite ?app_nil_r; try done.
    destruct (isOnline (world s)); by rewrite ?app_nil_r.
Qed.

Lemma trace_wire evs s :
  wire (world (run sha256 Math_random evs s))
  = wire (world s) ++ (trace sha256 Math_random evs s).*2.
Proof.
  revert s. induction evs as [|e evs IH]; intros s; simpl.
  { by rewrite app_nil_r. }
  by rewrite IH, step_wire, fmap_app, app_assoc.
Qed.

Lemma requests_of_app k tr1 tr2 :
  requests_of k (tr1 ++ tr2) = requests_of k tr1 ++ requests_of k tr2.
Proof. unfold requests_of. by rewrite filter_app, fmap_app. Qed.

Lemma sweeping_step k q acc e s :
  sweeping k q acc s →
  sweeping k q (acc ++ requests_of k (calls e s))
           (step sha256 Math_random e s).
Proof.
  intros (t & Et & Eq & Hacc).
  destruct e as [now r36 uuid| | |j]; simpl.
  - rewrite app_nil_r. by exists t.
  - rewrite app_nil_r. by exists t.
  - rewrite app_nil_r. exists t. split; [| done]. simpl.
    rewrite lookup_app_l; [done | by eapply lookup_lt_Some].
  - destruct (tasks s !! j) as [tj|] eqn:Ej.
    2:{ rewrite app_nil_r. by exists t. }
    pose proof (resume_task tj (world s)) as Ht.
    destruct (resume Math_random tj (world s)) as [t1 w1]. simpl in *.
    destruct (decide (j = k)) as [->|Hjk].
    + rewrite Et in Ej. injection Ej as <-. exists t1. cbn [tasks].
      rewrite list_lookup_insert_eq by (by eapply lookup_lt_Some).
      split; [done|]. subst t1. unfold progress in *.
      destruct t as [q' i ph]. simpl in *. subst q'.
      destruct ph, (q !! i) as [vote|] eqn:Ei; simpl;
        rewrite ?app_nil_r; try done.
      destruct (isOnline (world s)); simpl.
      * split; [done|]. unfold requests_of. rewrite filter_cons_True by done.
        rewrite filter_nil. simpl. rewrite (take_S_r _ _ _ Ei), fmap_app.
        by apply sublist_app.
      * rewrite app_nil_r. split; [done|].
        rewrite (take_S_r _ _ _ Ei), fmap_app. by apply sublist_inserts_r.
    + exists t. cbn [tasks]. rewrite list_lookup_insert_ne by done.
      split; [done|]. split; [done|].
      destruct tj as [qj ij phj]. destruct phj, (qj !! ij) as [vote|];
        rewrite ?app_nil_r; try done.
      destruct (isOnline (world s)); rewrite ?app_nil_r; [| done].
      unfold requests_of. rewrite filter_cons_False by done.
      by rewrite filter_nil, app_nil_r.
Qed.

Lemma sweeping_trace k q evs acc s :
  sweeping k q acc s →
  acc ++ requests_of k (trace sha256 Math_random evs s)
    `sublist_of` (Vote.id <$> q).
Proof.
  revert acc s. induction evs as [|e evs IH]; intros acc s Hs; simpl.
  - destruct Hs as (t & _ & _ & Hacc). rewrite app_nil_r.
    etrans; [done|]. apply fmap_sublist, sublist_take.
  - rewrite requests_of_app, app_assoc. by apply IH, sweeping_step.
Qed.

Lemma keyed_run evs s :
  keyed (db_votes (world s)) →
  keyed (db_votes (world (run sha256 Math_random evs s))).
Proof.
  revert s. induction evs as [|e evs IH]; intros s Hs; [done|].
  simpl. by apply IH, step_keyed.
Qed.

(** C10. The requests a sweep puts on the wire, whatever else runs in
    between, are ids of rows that were [queued] in the table when the sweep
    read it, in the order of that array, each at most once; the id of a row
    that was not in the table at that moment is not among them. *)
Theorem sweep_requests_follow_snapshot pre post s :
  keyed (db_votes (world s)) →
  requests_of (length (tasks (run sha256 Math_random pre s)))
    (trace sha256 Math_random post
       (step sha256 Math_random Tick (run sha256 Math_random pre s)))
    `sublist_of`
    (Vote.id <$>
       select_status queued (db_votes (world (run sha256 Math_random pre s))))
  ∧ NoDup (requests_of (length (tasks (run sha256 Math_random pre s)))
             (trace sha256 Math_random post
                (step sha256 Math_random Tick
                   (run sha256 Math_random pre s))))
  ∧ ∀ key,
      db_votes (world (run sha256 Math_random pre s)) !! key = None →
      key ∉ requests_of (length (tasks (run sha256 Math_random pre s)))
              (trace sha256 Math_random post
                 (step sha256 Math_random Tick
                    (run sha256 Math_random pre s))).
Proof.
  intros Hk. apply (keyed_run pre) in Hk.
  set (s1 := run sha256 Math_random pre s) in *.
  set (q := select_status queued (db_votes (world s1))).
  assert (requests_of (length (tasks s1))
            (trace sha256 Math_random post (step sha256 Math_random Tick s1))
          `sublist_of` (Vote.id <$> q)) as Hsub.
  { apply (sweeping_trace _ q post []).
    exists (mkTask q 0 AtLoop). cbn [step tasks].
    split_and!; [| done | apply sublist_nil_l].
    by rewrite lookup_app_r, Nat.sub_diag by done. }
  split_and!; [done | |].
  - eapply sublist_NoDup; [| done]. by apply NoDup_select_status_ids.
  - intros key Hnone Hin. eapply elem_of_sublist in Hin; [| done].
    apply list_elem_of_fmap in Hin as (vote & -> & Hin).
    apply elem_of_select_status in Hin as [Hin _].
    apply elem_of_rows_keyed in Hin; [| done]. congruence.
Qed.

(** ** Rows no sweep will read *)



(** ** A sweep left alone is [processQueue] *)

Lemma resume_end q i w :
  q !! i = None →
  resume Math_random (mkTask q i AtLoop) w
  = (mkTask q i Finished, (loadVotes w).2).
Proof. intros H. unfold resume. simpl. by rewrite H. Qed.

Lemma resume_offline q i vote w :
  q !! i = Some vote →
  isOnline w = false →
  resume Math_random (mkTask q i AtLoop) w
  = (mkTask q (S i) AtLoop, (attempt Math_random vote w).2).
Proof.
  intros H Ho. unfold resume. simpl. rewrite H, attempt_offline by done.
  run_monad. by rewrite Ho.
Qed.

Lemma resume_online q i vote w :
  q !! i = Some vote →
  isOnline w = true →
  ∃ w2,
    resume Math_random (mkTask q i AtLoop) w = (mkTask q i Awaiting, w2)
    ∧ resume Math_random (mkTask q i Awaiting) w2
      = (mkTask q (S i) AtLoop, (attempt Math_random vote w).2).
Proof.
  intros H Ho. unfold resume. simpl. rewrite H. run_monad. rewrite Ho. simpl.
  eexists. split; [done|]. by f_equal.
Qed.

Lemma step_resume_last ts t w t' w' :
  resume Math_random t w = (t', w') →
  step sha256 Math_random (Resume (length ts)) (mkSystem w (ts ++ [t]))
  = mkSystem w' (ts ++ [t']).
Proof.
  intros H. simpl. rewrite list_lookup_middle by done. rewrite H.
  f_equal. replace (length ts) with (length ts + 0)%nat at 1 by lia.
  by rewrite insert_app_r.
Qed.

Lemma run_app evs1 evs2 s :
  run sha256 Math_random (evs1 ++ evs2) s
  = run sha256 Math_random evs2 (run sha256 Math_random evs1 s).
Proof. apply foldl_app. Qed.

Lemma run_cons e evs s :
  run sha256 Math_random (e :: evs) s
  = run sha256 Math_random evs (step sha256 Math_random e s).
Proof. done. Qed.

Lemma run_loop ts q w m i :
  (i + m = length q)%nat →
  ∃ n,
    run sha256 Math_random (replicate n (Resume (length ts)))
      (mkSystem w (ts ++ [mkTask q i AtLoop]))
    = mkSystem (loadVotes (for_of (drop i q) (attempt Math_random) w).2).2
               (ts ++ [mkTask q (length q) Finished]).
Proof.
  revert i w. induction m as [|m IH]; intros i w Hi.
  - exists 1%nat. rewrite replicate_S, run_cons.
    assert (i = length q) as -> by lia.
    rewrite (step_resume_last _ _ _ _ _ (resume_end q (length q) w
                                           (lookup_ge_None_2 _ _ (le_n _)))).
    by rewrite drop_all.
  - destruct (lookup_lt_is_Some_2 q i) as [vote Hv]; [lia|].
    destruct (IH (S i) (attempt Math_random vote w).2) as [n Hn]; [lia|].
    rewrite (drop_S _ _ _ Hv), for_of_attempt_cons.
    destruct (isOnline w) eqn:Ho.
    + destruct (resume_online q i vote w Hv Ho) as (w2 & H1 & H2).
      exists (S (S n)). rewrite !replicate_S, !run_cons.
      by rewrite (step_resume_last _ _ _ _ _ H1),
        (step_resume_last _ _ _ _ _ H2).
    + exists (S n). rewrite replicate_S, run_cons.
      by rewrite (step_resume_last _ _ _ _ _ (resume_offline q i vote w Hv Ho)).
Qed.

(** X19. The interval firing, followed by enough turns of the sweep it
    starts and nothing in between, is one call of [processQueue]. *)
Lemma sweep_alone_is_processQueue w ts :
  ∃ n,
    run sha256 Math_random (Tick :: replicate n (Resume (length ts)))
      (mkSystem w ts)
    = mkSystem (processQueue Math_random w).2
        (ts ++ [mkTask (select_status queued (db_votes w))
                       (length (select_status queued (db_votes w)))
                       Finished]).
Proof.
  destruct (run_loop ts (select_status queued (db_votes w)) w
              (length (select_status queued (db_votes w))) 0 eq_refl)
    as [n Hn].
  exists n. rewrite processQueue_eq. exact Hn.
Qed.

End Machine.

(** ** Sweeps and casts from start to end *)

Section Claims.

Variable sha256 : string → list N.
Variable Math_random : nat → Q.

Lemma processQueue_db w :
  db_votes (processQueue Math_random w).2
  = db_votes (for_of (select_status queued (db_votes w))
                     (attempt Math_random) w).2.
Proof. by rewrite processQueue_eq. Qed.

(** The same row-by-row, with other sweeps and clicks in between: when a
    sweep comes back from the timer with a failed draw, the row, if it is
    still in the table, is written back as [failed] with the [retries] of the
    array entry plus one. *)
Lemma failed_request_step k t vote s :
  tasks s !! k = Some t →
  task_phase t = Awaiting →
  task_queued t !! task_pos t = Some vote →
  succeeds (Math_random (draws (world s))) = false →
  db_votes (world (step sha256 Math_random (Resume k) s)) !! Vote.id vote
  = to_failed vote <$> db_votes (world s) !! Vote.id vote.
Proof.
  intros Et Ep Ev Es. rewrite step_db. simpl. rewrite Et.
  unfold resume_effect. rewrite Ep, Ev, Es. simpl. apply lookup_alter_eq.
Qed.

(** X18. Offline, a sweep makes no request, draws no random number and
    leaves the [retries] of every row alone. *)
Lemma offline_sweep_is_silent w key :
  isOnline w = false →
  draws (processQueue Math_random w).2 = draws w
  ∧ wire (processQueue Math_random w).2 = wire w
  ∧ Vote.retries <$> db_votes (processQueue Math_random w).2 !! key
    = Vote.retries <$> db_votes w !! key.
Proof.
  intros Ho. rewrite processQueue_eq. simpl.
  destruct (for_of_attempt_offline Math_random
              (select_status queued (db_votes w)) w Ho) as [-> ->].
  split_and!; [done..|].
  rewrite for_of_attempt_offline_lookup by done.
  case_decide; [| done]. by destruct (db_votes w !! key).
Qed.

(** With no other sweep in flight: in a sweep that runs online, a row whose
    request fails ends the sweep in the table with status [failed] and with
    [retries] one more than the row had when the sweep read it; nothing else
    of the row changes. *)
Theorem failed_request_marks_failed w i vote :
  keyed (db_votes w) →
  isOnline w = true →
  select_status queued (db_votes w) !! i = Some vote →
  succeeds (Math_random (draws w + i)) = false →
  db_votes w !! Vote.id vote = Some vote
  ∧ db_votes (processQueue Math_random w).2 !! Vote.id vote
    = Some (Vote.mk (Vote.id vote) (Vote.idempotencyKey vote) failed
              (Vote.retries vote + 1) (Vote.signature vote)).
Proof.
  intros Hk Ho Hi Hs.
  assert (db_votes w !! Vote.id vote = Some vote) as Hv.
  { apply elem_of_rows_keyed; [done|].
    apply list_elem_of_lookup_2 in Hi.
    by apply elem_of_select_status in Hi as [? _]. }
  split; [done|].
  rewrite processQueue_db,
    (for_of_attempt_online_lookup Math_random _ w i vote Ho
       (NoDup_select_status_ids _ _ Hk) Hi), Hs, Hv.
  done.
Qed.

(** A cast whose id is not taken adds one row to the table: it is
    [queued], has no retries, and carries the signature of its id followed by
    its idempotency key.  The other rows are as before. *)
Theorem castVote_adds_one_queued_row now r36 uuid w :
  db_votes w !! generateId now r36 = None →
  (castVote sha256 now r36 uuid w).1 = Ok tt
  ∧ db_votes (castVote sha256 now r36 uuid w).2 !! generateId now r36
    = Some (Vote.mk (generateId now r36) uuid queued 0
              (signVote sha256 (generateId now r36 +:+ uuid)))
  ∧ (∀ key, key ≠ generateId now r36 →
            db_votes (castVote sha256 now r36 uuid w).2 !! key
            = db_votes w !! key)
  ∧ size (db_votes (castVote sha256 now r36 uuid w).2)
    = S (size (db_votes w)).
Proof.
  intros H. rewrite castVote_fresh by done. simpl. split_and!.
  - done.
  - apply lookup_insert_eq.
  - intros key Hne. by rewrite lookup_insert_ne.
  - by apply map_size_insert_None.
Qed.


End Claims.

(** ** Sweeps that find nothing [queued] *)

Lemma processQueue_idle Math_random w :
  select_status queued (db_votes w) = [] →
  processQueue Math_random w = (Ok tt, set_votes (rows (db_votes w)) w).
Proof. intros H. rewrite processQueue_eq, H. done. Qed.

(** With no row [queued], sweeps change nothing but the displayed list. *)
Lemma sweeps_idle Math_random n w :
  select_status queued (db_votes w) = [] →
  db_votes (sweeps Math_random n w) = db_votes w
  ∧ draws (sweeps Math_random n w) = draws w
  ∧ wire (sweeps Math_random n w) = wire w
  ∧ isOnline (sweeps Math_random n w) = isOnline w.
Proof.
  revert w. induction n as [|n IH]; intros w H; [done|].
  simpl. rewrite processQueue_idle by done. simpl.
  destruct (IH (set_votes (rows (db_votes w)) w)) as (-> & -> & -> & ->);
    done.
Qed.

(** ** Runs *)

Example one_vote_row :
  db_votes one_vote !! "vote-1700-4fzyo8" = Some (the_row queued 0).
Proof. reflexivity. Qed.

Example one_vote_sent :
  processQueue always_fine one_vote
  = (Ok tt, mkWorld ∅ [] true 1 ["vote-1700-4fzyo8"]).
Proof. reflexivity. Qed.

Example one_vote_failed :
  db_votes failed_once !! "vote-1700-4fzyo8" = Some (the_row failed 1)
  ∧ draws failed_once = 1%nat ∧ wire failed_once = ["vote-1700-4fzyo8"].
Proof. by vm_compute. Qed.

Lemma keyed_one_vote : keyed (db_votes one_vote).
Proof. apply (bool_decide_unpack _). vm_compute. exact I. Qed.

(** C1. A row with status [failed] is not read by any later sweep: however
    many sweeps run online and whatever the backend would answer, the row
    stays [failed] with the same [retries] and no request goes out. *)
Theorem failed_row_is_never_swept (Math_random : nat → Q) (n : nat) :
  select_status queued (db_votes failed_once) = []
  ∧ isOnline (sweeps Math_random n failed_once) = true
  ∧ db_votes (sweeps Math_random n failed_once) !! "vote-1700-4fzyo8"
    = Some (the_row failed 1)
  ∧ draws (sweeps Math_random n failed_once) = draws failed_once
  ∧ wire (sweeps Math_random n failed_once) = wire failed_once.
Proof.
  assert (select_status queued (db_votes failed_once) = []) as H
    by (by vm_compute).
  destruct (sweeps_idle Math_random n failed_once H) as (-> & -> & -> & ->).
  split_and!; by vm_compute.
Qed.

(** C2. With a backend that fails the first request and accepts the second,
    the row of [one_vote] is never delivered: after any number of sweeps
    online it is still in the table, and at most one request was made. *)
Theorem second_attempt_is_never_made (n : nat) :
  is_Some (db_votes (sweeps second_time_lucky n one_vote)
             !! "vote-1700-4fzyo8")
  ∧ isOnline (sweeps second_time_lucky n one_vote) = true
  ∧ (draws (sweeps second_time_lucky n one_vote) ≤ 1)%nat.
Proof.
  destruct n as [|n].
  { split_and!; [eexists; vm_compute; reflexivity | done | vm_compute; lia]. }
  change (sweeps second_time_lucky (S n) one_vote)
    with (sweeps second_time_lucky n (processQueue second_time_lucky one_vote).2).
  destruct (sweeps_idle second_time_lucky n
              (processQueue second_time_lucky one_vote).2)
    as (-> & -> & _ & ->); [by vm_compute|].
  split_and!; [eexists; vm_compute; reflexivity | done | vm_compute; lia].
Qed.

(** C3. A sweep that runs offline makes no request and leaves [retries]
    alone, but it does not leave the row [queued]: the row is [sending]. *)
Theorem offline_sweep_leaves_sending (Math_random : nat → Q) :
  db_votes one_vote_offline !! "vote-1700-4fzyo8" = Some (the_row queued 0)
  ∧ db_votes (processQueue Math_random one_vote_offline).2
      !! "vote-1700-4fzyo8" = Some (the_row sending 0)
  ∧ draws (processQueue Math_random one_vote_offline).2 = 0%nat
  ∧ wire (processQueue Math_random one_vote_offline).2 = [].
Proof. by vm_compute. Qed.

(** C6. The script schedules nothing after a failure.  A row that counts
    [k] retries and fails once more is written back as [failed] with [k + 1]
    retries and nothing else; whatever [k] is and however many sweeps follow,
    the row is not tried again. *)
Theorem no_backoff_schedule (k : Z) (Math_random : nat → Q) (n : nat) :
  db_votes (processQueue always_fails (retried k)).2 !! "vote-1700-4fzyo8"
  = Some (the_row failed (k + 1))
  ∧ db_votes (sweeps Math_random n (processQueue always_fails (retried k)).2)
      !! "vote-1700-4fzyo8"
    = Some (the_row failed (k + 1))
  ∧ draws (sweeps Math_random n (processQueue always_fails (retried k)).2)
    = 1%nat.
Proof.
  destruct (sweeps_idle Math_random n (processQueue always_fails (retried k)).2)
    as (-> & -> & _ & _); [by vm_compute|].
  split_and!; by vm_compute.
Qed.

(** ** Instances *)

Lemma failed_request_marks_failed_witness :
  (keyed (db_votes one_vote)
   ∧ isOnline one_vote = true
   ∧ select_status queued (db_votes one_vote) !! 0%nat
     = Some (the_row queued 0)
   ∧ succeeds (always_fails (draws one_vote + 0)) = false)
  ∧ (db_votes one_vote !! "vote-1700-4fzyo8" = Some (the_row queued 0)
     ∧ db_votes (processQueue always_fails one_vote).2 !! "vote-1700-4fzyo8"
       = Some (the_row failed 1)).
Proof.
  assert (keyed (db_votes one_vote)) as Hk.
  { apply (bool_decide_unpack _). vm_compute. exact I. }
  split.
  - split_and!; [exact Hk | reflexivity | reflexivity | reflexivity].
  - apply (failed_request_marks_failed always_fails one_vote 0
             (the_row queued 0)); [exact Hk | reflexivity..].
Defined.

Lemma castVote_adds_one_queued_row_witness :
  db_votes fresh_world !! generateId 1700 "0.4fzyo82mvyr" = None
  ∧ db_votes (castVote no_digest 1700 "0.4fzyo82mvyr" "u-1" fresh_world).2
      !! "vote-1700-4fzyo8"
    = Some (the_row queued 0).
Proof.
  split; [reflexivity|].
  apply (castVote_adds_one_queued_row no_digest 1700 "0.4fzyo82mvyr" "u-1"
           fresh_world).
  reflexivity.
Defined.

Lemma consistent_one_vote : consistent (mkSystem one_vote []).
Proof.
  apply (consistent_step no_digest always_fails
           (Cast 1700 "0.4fzyo82mvyr" "u-1") (mkSystem fresh_world [])).
  apply consistent_empty.
Qed.

Lemma retries_never_decrease_witness :
  (consistent (mkSystem one_vote [])
   ∧ stays no_digest always_fails "vote-1700-4fzyo8"
       [Tick; Resume 0; Resume 0] (mkSystem one_vote [])
   ∧ db_votes one_vote !! "vote-1700-4fzyo8" = Some (the_row queued 0)
   ∧ db_votes (world (run no_digest always_fails [Tick; Resume 0; Resume 0]
                        (mkSystem one_vote [])))
       !! "vote-1700-4fzyo8"
     = Some (the_row failed 1))
  ∧ Vote.retries (the_row queued 0) ≤ Vote.retries (the_row failed 1).
Proof.
  assert (stays no_digest always_fails "vote-1700-4fzyo8"
            [Tick; Resume 0; Resume 0] (mkSystem one_vote [])) as Hst.
  { vm_compute. repeat (split; [eexists; reflexivity|]). exact I. }
  split.
  - split_and!; [exact consistent_one_vote | exact Hst | reflexivity..].
  - apply (retries_never_decrease no_digest always_fails
             [Tick; Resume 0; Resume 0] (mkSystem one_vote [])
             "vote-1700-4fzyo8");
      [exact consistent_one_vote | exact Hst | reflexivity..].
Defined.


Lemma sweep_requests_follow_snapshot_witness :
  keyed (db_votes fresh_world)
  ∧ NoDup (requests_of 0
             (trace no_digest always_fine
                [Cast 1701 "0.zzzzzzzz" "u-2"; Resume 0; Resume 0; Resume 0]
                (step no_digest always_fine Tick
                   (run no_digest always_fine
                      [Cast 1700 "0.4fzyo82mvyr" "u-1"]
                      (mkSystem fresh_world []))))).
Proof.
  assert (keyed (db_votes fresh_world)) as Hk.
  { apply (bool_decide_unpack _). vm_compute. exact I. }
  split; [exact Hk|].
  apply (sweep_requests_follow_snapshot no_digest always_fine
           [Cast 1700 "0.4fzyo82mvyr" "u-1"]
           [Cast 1701 "0.zzzzzzzz" "u-2"; Resume 0; Resume 0; Resume 0]
           (mkSystem fresh_world [])).
  exact Hk.
Defined.

Example sweep_requests_run :
  trace no_digest always_fine
    [Cast 1701 "0.zzzzzzzz" "u-2"; Resume 0; Resume 0; Resume 0]
    (step no_digest always_fine Tick
       (run no_digest always_fine [Cast 1700 "0.4fzyo82mvyr" "u-1"]
          (mkSystem fresh_world [])))
  = [(0%nat, "vote-1700-4fzyo8")].
Proof. reflexivity. Qed.

(** A delivery that takes the row out, step by step. *)
Example removal_run :
  removed_by no_digest always_fine "vote-1700-4fzyo8" (Resume 0)
    (run no_digest always_fine [Tick; Resume 0] (mkSystem one_vote []))
  ∧ delivers always_fine "vote-1700-4fzyo8" (Resume 0)
      (run no_digest always_fine [Tick; Resume 0] (mkSystem one_vote [])).
Proof.
  split.
  - split; [by eexists | reflexivity].
  - exists 0%nat, (mkTask [the_row queued 0] 0 Awaiting), (the_row queued 0).
    by vm_compute.
Qed.

(** The bound of one request per row is a bound per sweep: two sweeps that
    overlap can both have read the row while it was [queued]. *)
Example overlapping_sweeps_send_twice :
  trace no_digest always_fine [Tick; Tick; Resume 0; Resume 1]
    (mkSystem one_vote [])
  = [(0%nat, "vote-1700-4fzyo8"); (1%nat, "vote-1700-4fzyo8")].
Proof. reflexivity. Qed.

(** * More of the script *)

(** ** Identifiers *)

Lemma pretty_N_go_no_dash x s : no_dash s → no_dash (pretty_N_go x s).
Proof.
  revert s. induction (N.lt_wf_0 x) as [x _ IH]; intros s Hs.
  assert (x = 0 ∨ 0 < x)%N as [->|Hx] by lia.
  - by rewrite pretty_N_go_0.
  - rewrite pretty_N_go_step by done. apply IH; [by apply N.div_lt|].
    split; [| done]. unfold pretty_N_char. by repeat case_match.
Qed.

Lemma pretty_N_no_dash (x : N) : no_dash (pretty x).
Proof.
  unfold pretty, pretty_N. case_decide; [by compute|].
  by apply pretty_N_go_no_dash.
Qed.

Lemma dash_split d1 d2 s1 s2 :
  no_dash d1 → no_dash d2 →
  d1 +:+ String "-" s1 = d2 +:+ String "-" s2 →
  d1 = d2 ∧ s1 = s2.
Proof.
  revert d2. induction d1 as [|c d1 IH]; intros [|c' d2]; simpl.
  - intros _ _ [= ->]. done.
  - intros _ [Hc _] [= <- _]. done.
  - intros [Hc _] _ [= -> _]. done.
  - intros [_ H1] [_ H2] [= -> E]. destruct (IH d2 H1 H2 E) as [-> ->]. done.
Qed.

(** X1. Two ids that [generateId] builds are equal only when the clock
    readings are equal and the six characters taken from the random numbers
    are equal: ids made at different milliseconds never collide. *)
Theorem generateId_inj now1 r1 now2 r2 :
  generateId now1 r1 = generateId now2 r2 →
  now1 = now2 ∧ String.substring 2 6 r1 = String.substring 2 6 r2.
Proof.
  unfold generateId. intros E.
  change (String.append "vote-" (pretty now1 +:+ String "-" (String.substring 2 6 r1))
          = String.append "vote-" (pretty now2 +:+ String "-" (String.substring 2 6 r2)))
    in E.
  simpl in E. injection E as E.
  apply dash_split in E as [E ->]; [| apply pretty_N_no_dash..].
  split; [| done]. by apply (inj pretty).
Qed.

(** ** Signatures *)

Lemma byte_cases (P : N → Prop) :
  Forall P (N.of_nat <$> seq 0 256) → ∀ b, (b < 256)%N → P b.
Proof.
  intros H b Hb. rewrite Forall_forall in H. apply H.
  apply list_elem_of_fmap. exists (N.to_nat b).
  split; [by rewrite N2Nat.id|]. apply elem_of_seq. lia.
Qed.

Lemma hex_byte_length b : (b < 256)%N → String.length (hex_byte b) = 2%nat.
Proof.
  revert b. apply byte_cases. apply (bool_decide_unpack _). by vm_compute.
Qed.

Lemma hex_bytes_NoDup : NoDup (hex_byte <$> (N.of_nat <$> seq 0 256)).
Proof. apply (bool_decide_unpack _). by vm_compute. Qed.

Lemma hex_byte_inj a b :
  (a < 256)%N → (b < 256)%N → hex_byte a = hex_byte b → a = b.
Proof.
  intros Ha Hb E.
  assert (∀ c, (c < 256)%N →
               (hex_byte <$> (N.of_nat <$> seq 0 256)) !! N.to_nat c
               = Some (hex_byte c)) as Hl.
  { intros c Hc. rewrite !list_lookup_fmap, lookup_seq_lt by lia.
    simpl. by rewrite N2Nat.id. }
  pose proof (Hl a Ha) as H1. pose proof (Hl b Hb) as H2.
  rewrite E in H1.
  pose proof (NoDup_lookup _ _ _ _ hex_bytes_NoDup H1 H2). lia.
Qed.

Lemma string_app_nil_r s : s +:+ "" = s.
Proof. induction s as [|c s IH]; [done|]. by rewrite <- IH at 2. Qed.

Lemma string_app_length s1 s2 :
  String.length (s1 +:+ s2) = (String.length s1 + String.length s2)%nat.
Proof. induction s1 as [|c s1 IH]; [done|]. simpl. by rewrite <- IH. Qed.

Lemma concat_empty_cons x xs :
  String.concat "" (x :: xs) = x +:+ String.concat "" xs.
Proof. destruct xs; simpl; [by rewrite string_app_nil_r | done]. Qed.

Lemma append_inj_length a1 a2 b1 b2 :
  String.length a1 = String.length a2 →
  a1 +:+ b1 = a2 +:+ b2 → a1 = a2 ∧ b1 = b2.
Proof.
  revert a2. induction a1 as [|c a1 IH]; intros [|c' a2]; simpl; try done.
  intros [= Hl] [= -> E]. destruct (IH a2 Hl E) as [-> ->]. done.
Qed.

Lemma hex_concat_inj l1 l2 :
  Forall (λ b, (b < 256)%N) l1 → Forall (λ b, (b < 256)%N) l2 →
  String.concat "" (hex_byte <$> l1) = String.concat "" (hex_byte <$> l2) →
  l1 = l2.
Proof.
  intros H1. revert l2. induction H1 as [|a l1 Ha _ IH]; intros l2 H2.
  - destruct H2 as [|b l2 Hb _]; [done|].
    rewrite fmap_cons, concat_empty_cons. simpl. intros E.
    pose proof (hex_byte_length b Hb) as Hl.
    destruct (hex_byte b); [done | discriminate E].
  - destruct H2 as [|b l2 Hb H2].
    + rewrite fmap_cons, concat_empty_cons. simpl. intros E.
      pose proof (hex_byte_length a Ha) as Hl.
      destruct (hex_byte a); [done | discriminate E].
    + rewrite !fmap_cons, !concat_empty_cons. intros E.
      apply append_inj_length in E as [E1 E2];
        [| by rewrite !hex_byte_length].
      f_equal; [by apply hex_byte_inj | by apply IH].
Qed.

Section Signing.

Variable sha256 : string → list N.

(** X2. When the digest is a list of bytes, [signVote] returns two
    characters for each of them: 64 characters for the 32 bytes of
    SHA-256. *)
Theorem signVote_length data :
  Forall (λ b, (b < 256)%N) (sha256 data) →
  String.length (signVote sha256 data) = (2 * length (sha256 data))%nat.
Proof.
  unfold signVote. induction 1 as [|b l Hb _ IH]; [done|].
  rewrite fmap_cons, concat_empty_cons, string_app_length, IH,
    hex_byte_length by done.
  simpl. lia.
Qed.

(** X3. The hexadecimal rendering loses nothing: two inputs get the same
    signature only when their digests are the same bytes. *)
Theorem signVote_determines_digest data1 data2 :
  Forall (λ b, (b < 256)%N) (sha256 data1) →
  Forall (λ b, (b < 256)%N) (sha256 data2) →
  signVote sha256 data1 = signVote sha256 data2 →
  sha256 data1 = sha256 data2.
Proof. intros H1 H2. by apply hex_concat_inj. Qed.

End Signing.

(** ** Sweeps *)

Section MoreSweeps.

Variable sha256 : string → list N.
Variable Math_random : nat → Q.

(** X4. A cast whose id is already in the table rejects with Dexie's
    constraint error and changes nothing: not the table, not the displayed
    list (the [loadVotes] after [add] does not run), not a sweep in flight. *)
Theorem cast_on_taken_id_changes_nothing now r36 uuid s :
  is_Some (db_votes (world s) !! generateId now r36) →
  (castVote sha256 now r36 uuid (world s)).1 = Throw ConstraintError
  ∧ step sha256 Math_random (Cast now r36 uuid) s = s.
Proof.
  intros H. simpl. rewrite castVote_taken by done. by destruct s.
Qed.

(** X5. Whatever the backend answers, [processQueue] resolves: a failed
    request is caught in the loop and the sweep goes on with the next row.
    When it resolves, the displayed list is the table. *)
Theorem processQueue_always_resolves w :
  (processQueue Math_random w).1 = Ok tt
  ∧ votes (processQueue Math_random w).2
    = rows (db_votes (processQueue Math_random w).2).
Proof. by rewrite processQueue_eq. Qed.

Lemma for_of_attempt_not_queued l w key v :
  key ∈ Vote.id <$> l →
  db_votes (for_of l (attempt Math_random) w).2 !! key = Some v →
  Vote.status v ≠ queued.
Proof.
  revert w. induction l as [|x l IH]; intros w Hin; [by apply elem_of_nil in Hin|].
  rewrite for_of_attempt_cons.
  destruct (decide (key ∈ Vote.id <$> l)) as [Hl|Hl]; [by apply IH|].
  rewrite fmap_cons, elem_of_cons in Hin. destruct Hin as [->|Hin]; [| done].
  rewrite for_of_attempt_other by done.
  destruct (attempt_cases Math_random x w)
    as [[_ ->]|[(_ & _ & ->)|(_ & _ & ->)]]; simpl.
  - rewrite lookup_alter_eq. destruct (db_votes w !! Vote.id x); [| done].
    by intros [= <-].
  - by rewrite lookup_delete_eq.
  - rewrite !lookup_alter_eq. destruct (db_votes w !! Vote.id x); [| done].
    by intros [= <-].
Qed.

Lemma queued_row_in_snapshot m v :
  keyed m → m !! Vote.id v = Some v → Vote.status v = queued →
  Vote.id v ∈ Vote.id <$> select_status queued m.
Proof.
  intros Hk Hv Hq. apply list_elem_of_fmap. exists v. split; [done|].
  apply elem_of_select_status. split; [by apply elem_of_rows_keyed | done].
Qed.

Lemma other_row_not_in_snapshot m key v :
  keyed m → m !! key = Some v → Vote.status v ≠ queued →
  key ∉ Vote.id <$> select_status queued m.
Proof.
  intros Hk Hv Hq Hin. apply list_elem_of_fmap in Hin as (u & -> & Hu).
  apply elem_of_select_status in Hu as [Hu Hs].
  apply elem_of_rows_keyed in Hu; [| done]. congruence.
Qed.

Lemma select_queued_after_sweep w :
  keyed (db_votes w) →
  select_status queued (db_votes (processQueue Math_random w).2) = [].
Proof.
  intros Hk.
  destruct (select_status queued (db_votes (processQueue Math_random w).2))
    as [|v l] eqn:E; [done|]. exfalso.
  assert (v ∈ select_status queued (db_votes (processQueue Math_random w).2))
    as Hv by (rewrite E; apply list_elem_of_here).
  apply elem_of_select_status in Hv as [Hv Hq]. revert Hv.
  rewrite processQueue_db. rewrite elem_of_rows_keyed
    by (by apply for_of_attempt_keyed).
  intros Hv.
  destruct (decide (Vote.id v ∈ Vote.id <$> select_status queued (db_votes w)))
    as [Hin|Hin].
  - by eapply for_of_attempt_not_queued.
  - rewrite for_of_attempt_other in Hv by done.
    apply Hin. by apply queued_row_in_snapshot.
Qed.

(** When a sweep that nothing else ran beside returns, no row of the table
    is [queued]: each row it read was deleted or is now [sending] or
    [failed]. *)
Theorem no_row_queued_after_sweep w key v :
  keyed (db_votes w) →
  db_votes (processQueue Math_random w).2 !! key = Some v →
  Vote.status v ≠ queued.
Proof.
  intros Hk Hv Hq.
  assert (keyed (db_votes (processQueue Math_random w).2)) as Hk'.
  { rewrite processQueue_db. by apply for_of_attempt_keyed. }
  eapply elem_of_nil. rewrite <- (select_queued_after_sweep w Hk).
  apply elem_of_select_status. split; [| done].
  apply elem_of_rows_keyed; [done|]. by rewrite (Hk' _ _ Hv).
Qed.

(** X8. A sweep leaves alone every row that is not [queued] when it starts:
    rows that are [sending] or [failed] come out exactly as they were. *)
Theorem sweep_skips_rows_not_queued w key v :
  keyed (db_votes w) →
  db_votes w !! key = Some v →
  Vote.status v ≠ queued →
  db_votes (processQueue Math_random w).2 !! key = Some v.
Proof.
  intros Hk Hv Hq. rewrite processQueue_db, for_of_attempt_other; [done|].
  by eapply other_row_not_in_snapshot.
Qed.

(** X9. A sweep that runs online makes one request for each row that was
    [queued], in the order of the array it read, and draws one random
    number for each. *)
Theorem online_sweep_requests_each_queued_row w :
  isOnline w = true →
  wire (processQueue Math_random w).2
  = wire w ++ (Vote.id <$> select_status queued (db_votes w))
  ∧ draws (processQueue Math_random w).2
    = (draws w + length (select_status queued (db_votes w)))%nat.
Proof.
  intros Ho. rewrite processQueue_eq. simpl.
  destruct (for_of_attempt_online Math_random
              (select_status queued (db_votes w)) w Ho) as [-> ->].
  done.
Qed.

(** X10. In a sweep that runs online, a row whose request succeeds is gone
    from the table when the sweep returns. *)
Theorem successful_request_deletes_row w i vote :
  keyed (db_votes w) →
  isOnline w = true →
  select_status queued (db_votes w) !! i = Some vote →
  succeeds (Math_random (draws w + i)) = true →
  db_votes (processQueue Math_random w).2 !! Vote.id vote = None.
Proof.
  intros Hk Ho Hi Hs.
  rewrite processQueue_db,
    (for_of_attempt_online_lookup Math_random _ w i vote Ho
       (NoDup_select_status_ids _ _ Hk) Hi), Hs.
  done.
Qed.

End MoreSweeps.

Section SweepsCompose.

Variable sha256 : string → list N.
Variable Math_random : nat → Q.

(** X7. A second sweep right after a first one does nothing: the first
    left no row [queued], so the second makes no request and returns the
    world as it found it.  The random stream may differ between the two. *)
Theorem second_sweep_does_nothing (Math_random' : nat → Q) w :
  keyed (db_votes w) →
  processQueue Math_random' (processQueue Math_random w).2
  = (Ok tt, (processQueue Math_random w).2).
Proof.
  intros Hk.
  rewrite (processQueue_idle Math_random' _
             (select_queued_after_sweep Math_random w Hk)).
  by rewrite processQueue_eq.
Qed.

Lemma select_status_insert_only m v :
  keyed m → m !! Vote.id v = None →
  select_status queued m = [] → Vote.status v = queued →
  select_status queued (<[Vote.id v := v]> m) = [v].
Proof.
  intros Hk Hnone Hm Hq.
  pose proof (keyed_insert m v Hk) as Hk'.
  assert (∀ u, u ∈ select_status queued (<[Vote.id v := v]> m) → u = v) as Hall.
  { intros u Hu. apply elem_of_select_status in Hu as [Hu Hs].
    apply elem_of_rows_keyed in Hu; [| done].
    rewrite lookup_insert in Hu. case_decide as Hid; [by injection Hu|].
    exfalso. eapply elem_of_nil. rewrite <- Hm.
    apply elem_of_select_status. split; [| done].
    by apply elem_of_rows_keyed. }
  assert (v ∈ select_status queued (<[Vote.id v := v]> m)) as Hv.
  { apply elem_of_select_status. split; [| done].
    apply elem_of_rows_keyed; [done|]. apply lookup_insert_eq. }
  pose proof (NoDup_select_status_ids queued _ Hk') as Hnd.
  destruct (select_status queued (<[Vote.id v := v]> m)) as [|a [|b l]].
  - by apply elem_of_nil in Hv.
  - f_equal. apply Hall, list_elem_of_here.
  - exfalso. rewrite (Hall a), (Hall b) in Hnd
      by (repeat constructor). simpl in Hnd.
    apply NoDup_cons in Hnd as [Hnd _]. apply Hnd, list_elem_of_here.
Qed.

(** X11. Cast and delivery undo each other on the table: on a table with no
    row [queued], a cast with a free id followed by an online sweep whose
    request succeeds leaves the table as it was before the cast. *)
Theorem cast_then_delivery_restores_table now r36 uuid w :
  keyed (db_votes w) →
  select_status queued (db_votes w) = [] →
  db_votes w !! generateId now r36 = None →
  isOnline w = true →
  succeeds (Math_random (draws w)) = true →
  db_votes (processQueue Math_random
              (castVote sha256 now r36 uuid w).2).2
  = db_votes w.
Proof.
  intros Hk Hm Hnone Ho Hs.
  rewrite castVote_fresh by done. cbn [snd].
  set (row := Vote.mk (generateId now r36) uuid queued 0
                (signVote sha256 (generateId now r36 +:+ uuid))).
  set (m := <[generateId now r36 := row]> (db_votes w)).
  rewrite processQueue_db. cbn [db_votes set_votes set_db].
  assert (select_status queued m = [row]) as ->.
  { by apply (select_status_insert_only (db_votes w) row). }
  rewrite for_of_attempt_cons. cbn [for_of ret snd].
  rewrite attempt_success by done. cbn [snd db_votes set_votes set_db].
  rewrite delete_alter_eq. unfold m. cbn [Vote.id row].
  rewrite delete_insert_eq. by apply delete_id.
Qed.

End SweepsCompose.

(** ** Rows under interleaving *)

Section MoreMachine.

Variable sha256 : string → list N.
Variable Math_random : nat → Q.

(** What a step can do to a row that is in the table before and after. *)
Lemma step_row e s key v v' :
  db_votes (world s) !! key = Some v →
  db_votes (world (step sha256 Math_random e s)) !! key = Some v' →
  v' = v ∨ v' = to_sending v ∨ ∃ vote, v' = to_failed vote v.
Proof.
  intros Hv. rewrite step_db. destruct (cast_row sha256 e) as [row|].
  - destruct (db_votes (world s) !! Vote.id row) eqn:Er.
    + rewrite Hv. intros [= <-]. by left.
    + rewrite lookup_insert. case_decide; [congruence|].
      rewrite Hv. intros [= <-]. by left.
  - destruct (step_effect Math_random e s) as [|vote|vote|vote]; simpl.
    + rewrite Hv. intros [= <-]. by left.
    + rewrite lookup_alter.
      case_decide; simplify_eq; rewrite Hv; simpl; intros [= <-]; auto.
    + rewrite lookup_delete. case_decide; [done|].
      rewrite Hv. intros [= <-]. by left.
    + rewrite lookup_alter.
      case_decide; simplify_eq; rewrite Hv; simpl; intros [= <-]; eauto.
Qed.

(** X12. While a row stays in the table, no cast, toggle, tick or sweep
    step changes its [id], its [idempotencyKey] or its [signature]. *)
Theorem identity_fields_never_change evs s key v v' :
  stays sha256 Math_random key evs s →
  db_votes (world s) !! key = Some v →
  db_votes (world (run sha256 Math_random evs s)) !! key = Some v' →
  Vote.id v' = Vote.id v
  ∧ Vote.idempotencyKey v' = Vote.idempotencyKey v
  ∧ Vote.signature v' = Vote.signature v.
Proof.
  revert s v. induction evs as [|e evs IH]; intros s v Hst Hv Hv'.
  { simpl in Hv'. rewrite Hv in Hv'. by injection Hv' as ->. }
  simpl in Hst, Hv'. destruct Hst as [_ Hst].
  destruct (stays_head _ _ _ _ _ Hst) as [v1 Hv1].
  destruct (IH _ v1 Hst Hv1 Hv') as (-> & -> & ->).
  destruct (step_row e s key v v1 Hv Hv1) as [->|[->|[vote ->]]]; done.
Qed.

(** X13. A row that has left the status [queued] does not come back to it
    for as long as it stays in the table. *)
Theorem row_never_returns_to_queued evs s key v v' :
  stays sha256 Math_random key evs s →
  db_votes (world s) !! key = Some v →
  db_votes (world (run sha256 Math_random evs s)) !! key = Some v' →
  Vote.status v ≠ queued →
  Vote.status v' ≠ queued.
Proof.
  revert s v. induction evs as [|e evs IH]; intros s v Hst Hv Hv' Hq.
  { simpl in Hv'. rewrite Hv in Hv'. by injection Hv' as <-. }
  simpl in Hst, Hv'. destruct Hst as [_ Hst].
  destruct (stays_head _ _ _ _ _ Hst) as [v1 Hv1].
  apply (IH _ v1 Hst Hv1 Hv').
  destruct (step_row e s key v v1 Hv Hv1) as [->|[->|[vote ->]]]; done.
Qed.

Lemma counted_step e s :
  counted s → counted (step sha256 Math_random e s).
Proof.
  intros [Hc Hn]. split; [by apply consistent_step|].
  destruct Hc as [_ Htk].
  intros key v. rewrite step_db.
  destruct (cast_row sha256 e) as [row|] eqn:Ec.
  - destruct (db_votes (world s) !! Vote.id row); [apply Hn|].
    rewrite lookup_insert. case_decide; [| apply Hn].
    intros [= <-]. destruct e; simplify_eq/=. done.
  - destruct (step_effect Math_random e s) as [|vote|vote|vote] eqn:Ee; simpl.
    + apply Hn.
    + rewrite lookup_alter_Some. intros [(_ & u & Hu & ->)|[_ Hu]];
        [| by eapply Hn]. simpl. split; [by eapply Hn | done].
    + rewrite lookup_delete_Some. intros [_ Hu]. by eapply Hn.
    + rewrite lookup_alter_Some. intros [(_ & u & Hu & ->)|[_ Hu]];
        [| by eapply Hn]. simpl.
      destruct (step_effect_source sha256 Math_random e s vote) as (k & t & _ & Et & Ev).
      { rewrite Ee. repeat constructor. }
      rewrite (Htk k t vote Et) by (by eapply list_elem_of_lookup_2).
      done.
Qed.

Lemma counted_run evs s :
  counted s → counted (run sha256 Math_random evs s).
Proof.
  revert s. induction evs as [|e evs IH]; intros s Hs; [done|].
  simpl. by apply IH, counted_step.
Qed.

Lemma counted_empty on n l : counted (mkSystem (mkWorld ∅ [] on n l) []).
Proof.
  split; [apply consistent_empty|]. simpl. intros ??. by rewrite lookup_empty.
Qed.

(** X14. Starting from an empty table, whatever is cast, toggled and swept,
    also with sweeps that overlap, [retries] is only ever 0 or 1: it is 0 on
    a [queued] row and 1 on a [failed] row.  The number the page shows after
    "Retries:" is therefore always 1. *)
Theorem retries_is_zero_or_one evs on n l key v :
  db_votes (world (run sha256 Math_random evs
                     (mkSystem (mkWorld ∅ [] on n l) []))) !! key = Some v →
  (Vote.retries v = 0 ∨ Vote.retries v = 1)
  ∧ (Vote.status v = queued → Vote.retries v = 0)
  ∧ (Vote.status v = failed → Vote.retries v = 1).
Proof.
  intros Hv.
  destruct (counted_run evs _ (counted_empty on n l)) as [[Hdb _] Hn].
  destruct (Hdb key v Hv) as [Hle Hq]. destruct (Hn key v Hv) as [Hge Hf].
  split_and!; [lia | done..].
Qed.

Lemma resume_votes t w :
  votes (resume Math_random t w).2
  = match task_phase t, task_queued t !! task_pos t with
    | AtLoop, None => rows (db_votes w)
    | _, _ => votes w
    end.
Proof.
  unfold resume.
  destruct (task_phase t), (task_queued t !! task_pos t) as [vote|];
    try done.
  - run_monad. by destruct (isOnline w).
  - run_monad. by destruct (succeeds (Math_random (draws w))).
Qed.

Lemma step_votes e s :
  votes (world (step sha256 Math_random e s)) = votes (world s)
  ∨ votes (world (step sha256 Math_random e s))
    = rows (db_votes (world (step sha256 Math_random e s))).
Proof.
  destruct e as [now r36 uuid| | |k]; simpl; auto.
  - destruct (db_votes (world s) !! generateId now r36) eqn:E.
    + left. by rewrite castVote_taken.
    + right. by rewrite castVote_fresh.
  - destruct (tasks s !! k) as [t|] eqn:Et; [| auto].
    pose proof (resume_votes t (world s)) as Hv.
    pose proof (resume_db Math_random t (world s)) as Hd.
    destruct (resume Math_random t (world s)) as [t1 w1]. simpl in *.
    unfold resume_effect in Hd.
    destruct (task_phase t), (task_queued t !! task_pos t); auto.
    right. by rewrite Hv, Hd.
Qed.

(** X15. Starting from an empty table, the list the page displays never
    holds two rows with the same [id], also while it lags behind the table:
    the [:key="vote.id"] of the template is a key. *)
Theorem displayed_ids_are_distinct evs on n l :
  NoDup (Vote.id <$> votes (world (run sha256 Math_random evs
                                     (mkSystem (mkWorld ∅ [] on n l) [])))).
Proof.
  assert (∀ s, keyed (db_votes (world s)) →
               NoDup (Vote.id <$> votes (world s)) →
               NoDup (Vote.id <$>
                        votes (world (run sha256 Math_random evs s)))) as H.
  { induction evs as [|e evs IH]; intros s Hk Hn; [done|].
    simpl. apply IH; [by apply step_keyed|].
    destruct (step_votes e s) as [-> | ->]; [done|].
    by apply NoDup_rows_ids, step_keyed. }
  apply H; simpl; [apply keyed_empty | constructor].
Qed.

End MoreMachine.

(** ** Mounting and unmounting *)

Section Lifecycle.

Variable sha256 : string → list N.
Variable Math_random : nat → Q.

Lemma click_tasks_length e s :
  e ≠ Tick →
  length (tasks (step sha256 Math_random e s)) = length (tasks s).
Proof.
  destruct e as [| | |k]; simpl; try done. intros _.
  destruct (tasks s !! k) as [t|]; [| done].
  destruct (resume Math_random t (world s)). simpl. apply length_insert.
Qed.

(** With no interval set and the mount over, no step starts a sweep. *)
Lemma no_interval_no_sweep ev a :
  intervals a = [] → mounting a = Mounted →
  intervals (app_step sha256 Math_random ev a) = []
  ∧ mounting (app_step sha256 Math_random ev a) = Mounted
  ∧ length (tasks (system (app_step sha256 Math_random ev a)))
    = length (tasks (system a)).
Proof.
  intros Hi Hm. destruct ev as [| | |h|e]; simpl; rewrite ?Hm; try done.
  - destruct (unmounted a); simpl; [done|]. rewrite Hi.
    by destruct (syncInterval a).
  - rewrite Hi. case_decide as Hin; [by apply elem_of_nil in Hin | done].
  - destruct e; simpl; try done.
    destruct (tasks (system a) !! k) as [t|]; [| done].
    destruct (resume Math_random t (world (system a))). simpl.
    split_and!; [done..|]. apply length_insert.
Qed.

(** X16. Unmounting a page that has finished mounting clears the interval:
    from then on no sweep is started, whatever else happens. *)
Theorem unmount_stops_new_sweeps evs a h :
  mounting a = Mounted →
  unmounted a = false →
  syncInterval a = Some h →
  intervals a = [h] →
  intervals (app_run sha256 Math_random evs
               (app_step sha256 Math_random Unmount a)) = []
  ∧ length (tasks (system (app_run sha256 Math_random evs
                             (app_step sha256 Math_random Unmount a))))
    = length (tasks (system a)).
Proof.
  intros Hm Hu Hs Hi.
  assert (∀ b, intervals b = [] → mounting b = Mounted →
               intervals (app_run sha256 Math_random evs b) = []
               ∧ length (tasks (system (app_run sha256 Math_random evs b)))
                 = length (tasks (system b))) as H.
  { induction evs as [|ev evs IH]; intros b Hb1 Hb2; [done|].
    simpl. destruct (no_interval_no_sweep ev b Hb1 Hb2) as (H1 & H2 & H3).
    destruct (IH _ H1 H2) as [H4 H5]. split; [done | congruence]. }
  destruct (H (app_step sha256 Math_random Unmount a)) as [H1 H2].
  - simpl. rewrite Hm, Hu. simpl. rewrite Hs, Hi. simpl.
    by rewrite filter_cons_False by naive_solver.
  - simpl. by rewrite Hm, Hu.
  - split; [done|]. rewrite H2. simpl. by rewrite Hm, Hu.
Qed.

(** The interval [h] is set, and both hooks have run. *)
Lemma leaked_interval_stays ev a h :
  h ∈ intervals a → mounting a = Mounted → unmounted a = true →
  h ∈ intervals (app_step sha256 Math_random ev a)
  ∧ mounting (app_step sha256 Math_random ev a) = Mounted
  ∧ unmounted (app_step sha256 Math_random ev a) = true.
Proof.
  intros Hi Hm Hu. destruct ev as [| | |h'|e]; simpl; rewrite ?Hm, ?Hu; try done.
  - by case_decide.
  - by destruct e.
Qed.

(** X17. Unmounting while [onMounted] still awaits [loadVotes] clears
    nothing, because [syncInterval] is assigned only afterwards: the
    interval that is then set is never cleared, and every time it fires a
    sweep starts. *)
Theorem unmount_while_loading_leaks_interval evs a :
  mounting a = Loading →
  unmounted a = false →
  next_handle a
    ∈ intervals (app_run sha256 Math_random evs
                   (app_step sha256 Math_random Loaded
                      (app_step sha256 Math_random Unmount a)))
  ∧ length (tasks (system
              (app_step sha256 Math_random (Fire (next_handle a))
                 (app_run sha256 Math_random evs
                    (app_step sha256 Math_random Loaded
                       (app_step sha256 Math_random Unmount a))))))
    = S (length (tasks (system
                   (app_run sha256 Math_random evs
                      (app_step sha256 Math_random Loaded
                         (app_step sha256 Math_random Unmount a)))))).
Proof.
  intros Hm Hu.
  assert (∀ b, next_handle a ∈ intervals b → mounting b = Mounted →
               unmounted b = true →
               next_handle a ∈ intervals (app_run sha256 Math_random evs b))
    as H.
  { induction evs as [|ev evs IH]; intros b H1 H2 H3; [done|].
    simpl. destruct (leaked_interval_stays ev b _ H1 H2 H3) as (? & ? & ?).
    by apply IH. }
  assert (next_handle a
            ∈ intervals (app_run sha256 Math_random evs
                           (app_step sha256 Math_random Loaded
                              (app_step sha256 Math_random Unmount a))))
    as Hin.
  { apply H; simpl; rewrite Hm, Hu; simpl; [| done..].
    apply list_elem_of_here. }
  split; [done|]. simpl. rewrite decide_True by done. simpl.
  rewrite length_app. simpl. lia.
Qed.

End Lifecycle.

(** ** Instances of the above *)

Ltac by_evaluation := apply (bool_decide_unpack _); vm_compute; exact I.

Lemma generateId_inj_witness :
  generateId 1700 "0.4fzyo82mvyr" = generateId 1700 "0.4fzyo8zzzz"
  ∧ (1700%N = 1700%N
     ∧ String.substring 2 6 "0.4fzyo82mvyr" = String.substring 2 6 "0.4fzyo8zzzz").
Proof.
  split; [reflexivity|].
  apply (generateId_inj 1700 "0.4fzyo82mvyr" 1700 "0.4fzyo8zzzz").
  reflexivity.
Defined.

Lemma no_digest_bytes data : Forall (λ b, (b < 256)%N) (no_digest data).
Proof. unfold no_digest. repeat constructor. Qed.

Lemma signVote_length_witness :
  Forall (λ b, (b < 256)%N) (no_digest "vote-1700-4fzyo8u-1")
  ∧ String.length (signVote no_digest "vote-1700-4fzyo8u-1")
    = (2 * length (no_digest "vote-1700-4fzyo8u-1"))%nat.
Proof.
  split; [apply no_digest_bytes|].
  apply (signVote_length no_digest "vote-1700-4fzyo8u-1").
  apply no_digest_bytes.
Defined.

Lemma signVote_determines_digest_witness :
  (Forall (λ b, (b < 256)%N) (no_digest "a")
   ∧ Forall (λ b, (b < 256)%N) (no_digest "b")
   ∧ signVote no_digest "a" = signVote no_digest "b")
  ∧ no_digest "a" = no_digest "b".
Proof.
  split.
  - split_and!; [apply no_digest_bytes.. | reflexivity].
  - apply (signVote_determines_digest no_digest "a" "b");
      [apply no_digest_bytes.. | reflexivity].
Defined.

Lemma cast_on_taken_id_changes_nothing_witness :
  is_Some (db_votes one_vote !! generateId 1700 "0.4fzyo82mvyr")
  ∧ step no_digest always_fine (Cast 1700 "0.4fzyo82mvyr" "u-9")
      (mkSystem one_vote [])
    = mkSystem one_vote [].
Proof.
  assert (is_Some (db_votes one_vote !! generateId 1700 "0.4fzyo82mvyr")) as H.
  { eexists. reflexivity. }
  split; [exact H|].
  apply (cast_on_taken_id_changes_nothing no_digest always_fine
           1700 "0.4fzyo82mvyr" "u-9" (mkSystem one_vote [])).
  exact H.
Defined.

Lemma no_row_queued_after_sweep_witness :
  (keyed (db_votes one_vote)
   ∧ db_votes (processQueue always_fails one_vote).2 !! "vote-1700-4fzyo8"
     = Some (the_row failed 1))
  ∧ Vote.status (the_row failed 1) ≠ queued.
Proof.
  assert (keyed (db_votes one_vote)) as Hk by by_evaluation.
  split.
  - split; [exact Hk | reflexivity].
  - apply (no_row_queued_after_sweep always_fails one_vote
             "vote-1700-4fzyo8" (the_row failed 1)); [exact Hk | reflexivity].
Defined.

Lemma second_sweep_does_nothing_witness :
  keyed (db_votes one_vote)
  ∧ processQueue always_fine (processQueue always_fails one_vote).2
    = (Ok tt, (processQueue always_fails one_vote).2).
Proof.
  assert (keyed (db_votes one_vote)) as Hk by by_evaluation.
  split; [exact Hk|].
  apply (second_sweep_does_nothing always_fails always_fine one_vote).
  exact Hk.
Defined.

Lemma sweep_skips_rows_not_queued_witness :
  (keyed (db_votes failed_once)
   ∧ db_votes failed_once !! "vote-1700-4fzyo8" = Some (the_row failed 1)
   ∧ Vote.status (the_row failed 1) ≠ queued)
  ∧ db_votes (processQueue always_fine failed_once).2 !! "vote-1700-4fzyo8"
    = Some (the_row failed 1).
Proof.
  assert (keyed (db_votes failed_once)) as Hk by by_evaluation.
  split.
  - split_and!; [exact Hk | reflexivity | discriminate].
  - apply (sweep_skips_rows_not_queued always_fine failed_once
             "vote-1700-4fzyo8" (the_row failed 1));
      [exact Hk | reflexivity | discriminate].
Defined.

Lemma online_sweep_requests_each_queued_row_witness :
  isOnline one_vote = true
  ∧ wire (processQueue always_fails one_vote).2
    = wire one_vote ++ (Vote.id <$> select_status queued (db_votes one_vote)).
Proof.
  split; [reflexivity|].
  apply (online_sweep_requests_each_queued_row always_fails one_vote).
  reflexivity.
Defined.

Lemma successful_request_deletes_row_witness :
  (keyed (db_votes one_vote)
   ∧ isOnline one_vote = true
   ∧ select_status queued (db_votes one_vote) !! 0%nat
     = Some (the_row queued 0)
   ∧ succeeds (always_fine (draws one_vote + 0)) = true)
  ∧ db_votes (processQueue always_fine one_vote).2 !! "vote-1700-4fzyo8"
    = None.
Proof.
  assert (keyed (db_votes one_vote)) as Hk by by_evaluation.
  split.
  - split_and!; [exact Hk | reflexivity..].
  - apply (successful_request_deletes_row always_fine one_vote 0
             (the_row queued 0)); [exact Hk | reflexivity..].
Defined.

Lemma cast_then_delivery_restores_table_witness :
  (keyed (db_votes failed_once)
   ∧ select_status queued (db_votes failed_once) = []
   ∧ db_votes failed_once !! generateId 1701 "0.zzzzzzzz" = None
   ∧ isOnline failed_once = true
   ∧ succeeds (always_fine (draws failed_once)) = true)
  ∧ db_votes (processQueue always_fine
                (castVote no_digest 1701 "0.zzzzzzzz" "u-2" failed_once).2).2
    = db_votes failed_once.
Proof.
  assert (keyed (db_votes failed_once)) as Hk by by_evaluation.
  split.
  - split_and!; [exact Hk | reflexivity..].
  - apply (cast_then_delivery_restores_table no_digest always_fine
             1701 "0.zzzzzzzz" "u-2" failed_once); [exact Hk | reflexivity..].
Defined.

Lemma stays_one_vote :
  stays no_digest always_fails "vote-1700-4fzyo8"
    [Tick; Resume 0; Resume 0] (mkSystem one_vote []).
Proof. vm_compute. repeat (split; [eexists; reflexivity|]). exact I. Qed.

Lemma identity_fields_never_change_witness :
  (stays no_digest always_fails "vote-1700-4fzyo8"
     [Tick; Resume 0; Resume 0] (mkSystem one_vote [])
   ∧ db_votes one_vote !! "vote-1700-4fzyo8" = Some (the_row queued 0)
   ∧ db_votes (world (run no_digest always_fails [Tick; Resume 0; Resume 0]
                        (mkSystem one_vote [])))
       !! "vote-1700-4fzyo8"
     = Some (the_row failed 1))
  ∧ Vote.signature (the_row failed 1) = Vote.signature (the_row queued 0).
Proof.
  split.
  - split_and!; [exact stays_one_vote | reflexivity..].
  - apply (identity_fields_never_change no_digest always_fails
             [Tick; Resume 0; Resume 0] (mkSystem one_vote [])
             "vote-1700-4fzyo8" (the_row queued 0) (the_row failed 1));
      [exact stays_one_vote | reflexivity..].
Defined.

Lemma stays_failed_once :
  stays no_digest always_fine "vote-1700-4fzyo8"
    [Tick; Resume 0; Toggle] (mkSystem failed_once []).
Proof. vm_compute. repeat (split; [eexists; reflexivity|]). exact I. Qed.

Lemma row_never_returns_to_queued_witness :
  (stays no_digest always_fine "vote-1700-4fzyo8"
     [Tick; Resume 0; Toggle] (mkSystem failed_once [])
   ∧ db_votes failed_once !! "vote-1700-4fzyo8" = Some (the_row failed 1)
   ∧ db_votes (world (run no_digest always_fine [Tick; Resume 0; Toggle]
                        (mkSystem failed_once [])))
       !! "vote-1700-4fzyo8"
     = Some (the_row failed 1)
   ∧ Vote.status (the_row failed 1) ≠ queued)
  ∧ Vote.status (the_row failed 1) ≠ queued.
Proof.
  split.
  - split_and!; [exact stays_failed_once | reflexivity.. | discriminate].
  - apply (row_never_returns_to_queued no_digest always_fine
             [Tick; Resume 0; Toggle] (mkSystem failed_once [])
             "vote-1700-4fzyo8" (the_row failed 1) (the_row failed 1));
      [exact stays_failed_once | reflexivity.. | discriminate].
Defined.

Lemma retries_is_zero_or_one_witness :
  db_votes (world (run no_digest always_fails
                     [Cast 1700 "0.4fzyo82mvyr" "u-1"; Tick; Resume 0; Resume 0]
                     (mkSystem (mkWorld ∅ [] true 0 []) [])))
    !! "vote-1700-4fzyo8"
  = Some (the_row failed 1)
  ∧ (Vote.status (the_row failed 1) = failed
     → Vote.retries (the_row failed 1) = 1).
Proof.
  split; [reflexivity|].
  apply (retries_is_zero_or_one no_digest always_fails
           [Cast 1700 "0.4fzyo82mvyr" "u-1"; Tick; Resume 0; Resume 0]
           true 0 [] "vote-1700-4fzyo8" (the_row failed 1)).
  reflexivity.
Defined.

Lemma unmount_stops_new_sweeps_witness :
  (mounting (app_run no_digest always_fine [Mount; Loaded] fresh_app) = Mounted
   ∧ unmounted (app_run no_digest always_fine [Mount; Loaded] fresh_app) = false
   ∧ syncInterval (app_run no_digest always_fine [Mount; Loaded] fresh_app)
     = Some 1%nat
   ∧ intervals (app_run no_digest always_fine [Mount; Loaded] fresh_app)
     = [1%nat])
  ∧ length (tasks (system
              (app_run no_digest always_fine
                 [Fire 1; Click (Cast 1700 "0.4fzyo82mvyr" "u-1"); Fire 1]
                 (app_step no_digest always_fine Unmount
                    (app_run no_digest always_fine [Mount; Loaded]
                       fresh_app)))))
    = length (tasks (system
                (app_run no_digest always_fine [Mount; Loaded] fresh_app))).
Proof.
  split; [by split_and!|].
  apply (unmount_stops_new_sweeps no_digest always_fine
           [Fire 1; Click (Cast 1700 "0.4fzyo82mvyr" "u-1"); Fire 1]
           (app_run no_digest always_fine [Mount; Loaded] fresh_app) 1);
    reflexivity.
Defined.

Lemma unmount_while_loading_leaks_interval_witness :
  (mounting (app_step no_digest always_fine Mount fresh_app) = Loading
   ∧ unmounted (app_step no_digest always_fine Mount fresh_app) = false)
  ∧ next_handle (app_step no_digest always_fine Mount fresh_app)
      ∈ intervals
          (app_run no_digest always_fine [Unmount; Fire 1]
             (app_step no_digest always_fine Loaded
                (app_step no_digest always_fine Unmount
                   (app_step no_digest always_fine Mount fresh_app)))).
Proof.
  split; [by split|].
  apply (unmount_while_loading_leaks_interval no_digest always_fine
           [Unmount; Fire 1] (app_step no_digest always_fine Mount fresh_app));
    reflexivity.
Defined.

Lemma offline_sweep_is_silent_witness :
  isOnline one_vote_offline = false
  ∧ wire (processQueue always_fine one_vote_offline).2 = wire one_vote_offline.
Proof.
  split; [reflexivity|].
  apply (offline_sweep_is_silent always_fine one_vote_offline
           "vote-1700-4fzyo8").
  reflexivity.
Defined.

(** The leak, step by step: mounted, unmounted before [loadVotes] returns,
    and the interval still starts sweeps. *)
Example leaked_interval_run :
  length (tasks (system
            (app_run no_digest always_fine
               [Mount; Unmount; Loaded; Fire 1; Fire 1] fresh_app)))
  = 2%nat.
Proof. reflexivity. Qed.

(** ** Failed requests and casts, in every case *)

Section EveryCase.

Variable sha256 : string → list N.
Variable Math_random : nat → Q.

Lemma sweeping_run k q evs acc s :
  sweeping k q acc s →
  ∃ acc', sweeping k q acc' (run sha256 Math_random evs s).
Proof.
  revert acc s. induction evs as [|e evs IH]; intros acc s Hs; [by exists acc|].
  simpl. eapply IH, sweeping_step, Hs.
Qed.

(** The array of the sweep a tick starts is what was [queued] at the tick,
    whatever runs afterwards. *)
Lemma started_sweep_array pre post s t :
  tasks (run sha256 Math_random post
           (step sha256 Math_random Tick (run sha256 Math_random pre s)))
    !! length (tasks (run sha256 Math_random pre s)) = Some t →
  task_queued t
  = select_status queued (db_votes (world (run sha256 Math_random pre s))).
Proof.
  intros Et.
  destruct (sweeping_run (length (tasks (run sha256 Math_random pre s)))
              (select_status queued
                 (db_votes (world (run sha256 Math_random pre s))))
              post []
              (step sha256 Math_random Tick (run sha256 Math_random pre s)))
    as (acc & t' & Et' & Eq & _).
  - exists (mkTask (select_status queued
                       (db_votes (world (run sha256 Math_random pre s))))
                    0 AtLoop).
    cbn [step tasks]. split_and!; [| done | apply sublist_nil_l].
    by rewrite lookup_app_r, Nat.sub_diag by done.
  - congruence.
Qed.

(** C5. When a request of a sweep fails, the entry of the array is the row
    as it was stored and [queued] when the sweep started, and the [catch]
    writes [failed] and the [retries] of that entry plus one into the row
    that is in the table at that moment, leaving its other fields alone;
    when another sweep has deleted the row in between, nothing is written.
    In a sweep that runs online with nothing in between, the row is always
    there. *)
Theorem failed_request_writes_failed :
  (∀ pre post s t vote,
     keyed (db_votes (world s)) →
     tasks (run sha256 Math_random post
              (step sha256 Math_random Tick (run sha256 Math_random pre s)))
       !! length (tasks (run sha256 Math_random pre s)) = Some t →
     task_phase t = Awaiting →
     task_queued t !! task_pos t = Some vote →
     succeeds
       (Math_random
          (draws (world (run sha256 Math_random post
                           (step sha256 Math_random Tick
                              (run sha256 Math_random pre s))))))
     = false →
     (db_votes (world (run sha256 Math_random pre s)) !! Vote.id vote
      = Some vote
      ∧ Vote.status vote = queued)
     ∧ db_votes
         (world (step sha256 Math_random
                   (Resume (length (tasks (run sha256 Math_random pre s))))
                   (run sha256 Math_random post
                      (step sha256 Math_random Tick
                         (run sha256 Math_random pre s)))))
         !! Vote.id vote
       = (λ u, Vote.mk (Vote.id u) (Vote.idempotencyKey u) failed
                 (Vote.retries vote + 1) (Vote.signature u))
         <$> db_votes (world (run sha256 Math_random post
                                (step sha256 Math_random Tick
                                   (run sha256 Math_random pre s))))
               !! Vote.id vote)
  ∧ (∀ w i vote,
       keyed (db_votes w) →
       isOnline w = true →
       select_status queued (db_votes w) !! i = Some vote →
       succeeds (Math_random (draws w + i)) = false →
       db_votes w !! Vote.id vote = Some vote
       ∧ db_votes (processQueue Math_random w).2 !! Vote.id vote
         = Some (Vote.mk (Vote.id vote) (Vote.idempotencyKey vote) failed
                   (Vote.retries vote + 1) (Vote.signature vote))).
Proof.
  split.
  - intros pre post s t vote Hk Et Ep Ev Hs.
    pose proof (started_sweep_array pre post s t Et) as Eq.
    assert (vote ∈ select_status queued
                     (db_votes (world (run sha256 Math_random pre s))))
      as Hin.
    { rewrite <- Eq. by eapply list_elem_of_lookup_2. }
    apply elem_of_select_status in Hin as [Hin Hq].
    apply elem_of_rows_keyed in Hin; [| by apply keyed_run].
    split; [done|].
    exact (failed_request_step sha256 Math_random _ t vote _ Et Ep Ev Hs).
  - intros w i vote. apply failed_request_marks_failed.
Qed.

(** C8. A cast whose id is free resolves and adds exactly one row: it is
    [queued], has no retries and carries the signature of its id followed by
    its idempotency key, and the other rows are as before.  A cast whose id
    is taken rejects and leaves the world as it was. *)
Theorem castVote_adds_one_row_or_rejects now r36 uuid w :
  (db_votes w !! generateId now r36 = None →
   (castVote sha256 now r36 uuid w).1 = Ok tt
   ∧ db_votes (castVote sha256 now r36 uuid w).2 !! generateId now r36
     = Some (Vote.mk (generateId now r36) uuid queued 0
               (signVote sha256 (generateId now r36 +:+ uuid)))
   ∧ (∀ key, key ≠ generateId now r36 →
             db_votes (castVote sha256 now r36 uuid w).2 !! key
             = db_votes w !! key)
   ∧ size (db_votes (castVote sha256 now r36 uuid w).2)
     = S (size (db_votes w)))
  ∧ (is_Some (db_votes w !! generateId now r36) →
     castVote sha256 now r36 uuid w = (Throw ConstraintError, w)).
Proof.
  split.
  - apply castVote_adds_one_queued_row.
  - apply castVote_taken.
Qed.

(** ** Rows a finished sweep leaves behind *)

Lemma awaits_claim_step k q key e s :
  awaits_claim k q key s →
  is_Some (db_votes (world (step sha256 Math_random e s)) !! key) →
  awaits_claim k q key (step sha256 Math_random e s).
Proof.
  intros (t & u & Et & Eq & Hfin & Hu & Hq) [u' Hu'].
  assert (Vote.status u' = queued → Vote.status u = queued) as Hback.
  { destruct (step_row sha256 Math_random e s key u u' Hu Hu')
      as [->|[->|[vote ->]]]; done. }
  destruct e as [now r36 uuid| | |j].
  - exists t, u'. split_and!; [done..|]. auto.
  - exists t, u'. split_and!; [done..|]. auto.
  - exists t, u'. split_and!; [| done.. |]; [| auto].
    cbn [step tasks]. rewrite lookup_app_l; [done | by eapply lookup_lt_Some].
  - destruct (decide (j = k)) as [->|Hjk].
    2:{ exists t, u'. split_and!; [| done.. |]; [| auto].
        simpl. destruct (tasks s !! j) as [tj|]; [| done].
        destruct (resume Math_random tj (world s)). cbn [tasks].
        by rewrite list_lookup_insert_ne. }
    pose proof (resume_task Math_random t (world s)) as Ht.
    rewrite step_db in Hu'. simpl in Hu'. rewrite Et in Hu'.
    unfold resume_effect in Hu'.
    exists (resume Math_random t (world s)).1, u'.
    split; [|split; [|split; [|split]]].
    + simpl. rewrite Et. destruct (resume Math_random t (world s)).
      cbn [tasks fst]. apply list_lookup_insert_eq. by eapply lookup_lt_Some.
    + by rewrite resume_queued.
    + rewrite Ht. rewrite <- Eq in *.
      destruct (task_phase t) eqn:Ep,
        (task_queued t !! task_pos t) as [vote|] eqn:Ev; simpl; try done;
        try (by destruct (isOnline (world s))).
      intros _. auto.
    + rewrite step_db. simpl. rewrite Et. done.
    + intros Hq'. specialize (Hq (Hback Hq')). rewrite Ht.
      unfold progress in *. rewrite <- Eq in *.
      destruct (task_phase t) eqn:Ep,
        (task_queued t !! task_pos t) as [vote|] eqn:Ev; simpl; try done.
      * simpl in Hu'.
        assert (key ∈ Vote.id <$> drop (S (task_pos t)) (task_queued t)) as H.
        { rewrite (drop_S _ _ _ Ev), fmap_cons, elem_of_cons in Hq.
          destruct Hq as [->|Hq]; [| done]. exfalso.
          rewrite lookup_alter_eq, Hu in Hu'. simpl in Hu'.
          injection Hu' as <-. done. }
        by destruct (isOnline (world s)).
      * by rewrite Ep.
      * by rewrite Ep.
      * by rewrite Ep.
Qed.

Lemma awaits_claim_run k q key evs s :
  awaits_claim k q key s →
  stays sha256 Math_random key evs s →
  awaits_claim k q key (run sha256 Math_random evs s).
Proof.
  revert s. induction evs as [|e evs IH]; intros s Hs Hst; [done|].
  simpl in *. destruct Hst as [_ Hst].
  apply IH; [| done]. apply awaits_claim_step; [done|].
  by eapply stays_head.
Qed.

(** X6. When a sweep has finished, whatever casts, toggles and other
    sweeps ran while it was suspended, a row that was in the table when the
    sweep started and has stayed in it since is not [queued]. *)
Theorem finished_sweep_leaves_old_rows_not_queued pre post s t key v :
  keyed (db_votes (world s)) →
  stays sha256 Math_random key post
    (step sha256 Math_random Tick (run sha256 Math_random pre s)) →
  tasks (run sha256 Math_random post
           (step sha256 Math_random Tick (run sha256 Math_random pre s)))
    !! length (tasks (run sha256 Math_random pre s)) = Some t →
  task_phase t = Finished →
  db_votes (world (run sha256 Math_random post
                     (step sha256 Math_random Tick
                        (run sha256 Math_random pre s)))) !! key = Some v →
  Vote.status v ≠ queued.
Proof.
  intros Hk Hst Et Ep Hv Hq.
  destruct (stays_head _ _ _ _ _ Hst) as [u Hu]. simpl in Hu.
  pose proof (keyed_run sha256 Math_random pre s Hk) as Hk1.
  destruct (awaits_claim_run
              (length (tasks (run sha256 Math_random pre s)))
              (select_status queued
                 (db_votes (world (run sha256 Math_random pre s))))
              key post
              (step sha256 Math_random Tick (run sha256 Math_random pre s)))
    as (t' & v' & Et' & Eq & Hfin & Hv' & Hin); [| done |].
  - eexists _, u. cbn [step tasks world].
    split; [|split; [|split; [|split]]].
    + by rewrite lookup_app_r, Nat.sub_diag by done.
    + done.
    + done.
    + done.
    + intros Hqu. cbn [progress task_phase task_pos]. rewrite drop_0.
      rewrite <- (Hk1 _ _ Hu). apply queued_row_in_snapshot; [done | | done].
      by rewrite (Hk1 _ _ Hu).
  - rewrite Et in Et'. injection Et' as <-. rewrite Hv in Hv'.
    injection Hv' as <-. specialize (Hin Hq). specialize (Hfin Ep).
    unfold progress in Hin. rewrite Ep in Hin.
    rewrite drop_ge in Hin by (by apply lookup_ge_None).
    by apply elem_of_nil in Hin.
Qed.

End EveryCase.

(** ** Instances, and the cases set apart *)

(** Two sweeps overlap on the one row of [one_vote]; the request of the
    second succeeds and deletes the row; then the request of the first
    fails, and its [catch] finds no row to write to: the row is not in the
    table, let alone [failed]. *)
Lemma failed_request_finds_row_deleted :
  tasks (run no_digest first_time_lucky
           [Tick; Tick; Resume 0; Resume 1; Resume 1] (mkSystem one_vote []))
    !! 0%nat
  = Some (mkTask [the_row queued 0] 0 Awaiting)
  ∧ succeeds
      (first_time_lucky
         (draws (world (run no_digest first_time_lucky
                          [Tick; Tick; Resume 0; Resume 1; Resume 1]
                          (mkSystem one_vote [])))))
    = false
  ∧ db_votes (world (run no_digest first_time_lucky
                       [Tick; Tick; Resume 0; Resume 1; Resume 1; Resume 0]
                       (mkSystem one_vote [])))
      !! "vote-1700-4fzyo8"
    = None
  ∧ db_votes (world (run no_digest first_time_lucky
                       [Tick; Tick; Resume 0; Resume 1; Resume 1; Resume 0]
                       (mkSystem one_vote [])))
      !! "vote-1700-4fzyo8"
    ≠ Some (the_row failed 1).
Proof. split_and!; [by vm_compute.. | vm_compute; discriminate]. Qed.

Lemma failed_request_writes_failed_witness :
  (keyed (db_votes one_vote)
   ∧ tasks (run no_digest always_fails [Resume 0]
              (step no_digest always_fails Tick
                 (run no_digest always_fails [] (mkSystem one_vote []))))
       !! 0%nat
     = Some (mkTask [the_row queued 0] 0 Awaiting)
   ∧ succeeds
       (always_fails
          (draws (world (run no_digest always_fails [Resume 0]
                           (step no_digest always_fails Tick
                              (run no_digest always_fails []
                                 (mkSystem one_vote [])))))))
     = false)
  ∧ db_votes
      (world (step no_digest always_fails (Resume 0)
                (run no_digest always_fails [Resume 0]
                   (step no_digest always_fails Tick
                      (run no_digest always_fails []
                         (mkSystem one_vote []))))))
      !! "vote-1700-4fzyo8"
    = Some (the_row failed 1).
Proof.
  assert (keyed (db_votes one_vote)) as Hk by by_evaluation.
  split.
  - split_and!; [exact Hk | reflexivity..].
  - apply (proj1 (failed_request_writes_failed no_digest always_fails)
             [] [Resume 0] (mkSystem one_vote [])
             (mkTask [the_row queued 0] 0 Awaiting) (the_row queued 0));
      [exact Hk | reflexivity..].
Defined.

(** A cast that picks the id of the row of [one_vote] rejects and adds no
    row: the table has one row before and one row after. *)
Lemma cast_on_taken_id_creates_no_row :
  castVote no_digest 1700 "0.4fzyo82mvyr" "u-9" one_vote
  = (Throw ConstraintError, one_vote)
  ∧ size (db_votes
            (castVote no_digest 1700 "0.4fzyo82mvyr" "u-9" one_vote).2)
    = size (db_votes one_vote)
  ∧ size (db_votes
            (castVote no_digest 1700 "0.4fzyo82mvyr" "u-9" one_vote).2)
    ≠ S (size (db_votes one_vote)).
Proof. split_and!; [by vm_compute.. | vm_compute; lia]. Qed.

Lemma castVote_adds_one_row_or_rejects_witness :
  (db_votes fresh_world !! generateId 1700 "0.4fzyo82mvyr" = None
   ∧ is_Some (db_votes one_vote !! generateId 1700 "0.4fzyo82mvyr"))
  ∧ db_votes (castVote no_digest 1700 "0.4fzyo82mvyr" "u-1" fresh_world).2
      !! "vote-1700-4fzyo8"
    = Some (the_row queued 0)
  ∧ castVote no_digest 1700 "0.4fzyo82mvyr" "u-9" one_vote
    = (Throw ConstraintError, one_vote).
Proof.
  assert (is_Some (db_votes one_vote !! generateId 1700 "0.4fzyo82mvyr")) as H.
  { eexists. reflexivity. }
  split; [split; [reflexivity | exact H]|]. split.
  - apply (proj1 (castVote_adds_one_row_or_rejects no_digest
                    1700 "0.4fzyo82mvyr" "u-1" fresh_world)).
    reflexivity.
  - apply (proj2 (castVote_adds_one_row_or_rejects no_digest
                    1700 "0.4fzyo82mvyr" "u-9" one_vote)).
    exact H.
Defined.

Lemma stays_through_sweep :
  stays no_digest always_fails "vote-1700-4fzyo8"
    [Cast 1701 "0.zzzzzzzz" "u-2"; Resume 0; Resume 0; Resume 0]
    (step no_digest always_fails Tick
       (run no_digest always_fails [] (mkSystem one_vote []))).
Proof. vm_compute. repeat (split; [eexists; reflexivity|]). exact I. Qed.

Lemma finished_sweep_leaves_old_rows_not_queued_witness :
  (keyed (db_votes one_vote)
   ∧ tasks (run no_digest always_fails
              [Cast 1701 "0.zzzzzzzz" "u-2"; Resume 0; Resume 0; Resume 0]
              (step no_digest always_fails Tick
                 (run no_digest always_fails [] (mkSystem one_vote []))))
       !! 0%nat
     = Some (mkTask [the_row queued 0] 1 Finished)
   ∧ db_votes (world (run no_digest always_fails
                        [Cast 1701 "0.zzzzzzzz" "u-2"; Resume 0; Resume 0;
                         Resume 0]
                        (step no_digest always_fails Tick
                           (run no_digest always_fails []
                              (mkSystem one_vote [])))))
       !! "vote-1700-4fzyo8"
     = Some (the_row failed 1))
  ∧ Vote.status (the_row failed 1) ≠ queued.
Proof.
  assert (keyed (db_votes one_vote)) as Hk by by_evaluation.
  split.
  - split_and!; [exact Hk | reflexivity..].
  - apply (finished_sweep_leaves_old_rows_not_queued no_digest always_fails
             [] [Cast 1701 "0.zzzzzzzz" "u-2"; Resume 0; Resume 0; Resume 0]
             (mkSystem one_vote []) (mkTask [the_row queued 0] 1 Finished)
             "vote-1700-4fzyo8" (the_row failed 1));
      [exact Hk | exact stays_through_sweep | reflexivity..].
Defined.

(** The row cast while the sweep was suspended is still [queued] when the
    sweep has finished. *)
Example row_cast_during_sweep_stays_queued :
  Vote.status
  <$> db_votes (world (run no_digest always_fails
                         [Cast 1701 "0.zzzzzzzz" "u-2"; Resume 0; Resume 0;
                          Resume 0]
                         (step no_digest always_fails Tick
                            (mkSystem one_vote []))))
        !! "vote-1701-zzzzzz"
  = Some queued.
Proof. reflexivity. Qed.
